(** * Kelips affinity groups: keyspace partition, membership, local facade

    A shallow embedding of the Go package [kelips] (affinity-group list,
    single affinity group, local group facade) together with the
    properties of its specification.

    Conventions of the embedding:
    - Go [int]/[int64] values are [Z]; fixed-width arithmetic that the
      code performs is written out with its wrap-around;
    - [[]byte] is [list byte]; [math/big] integers are [Z];
    - a [*hexatype.Node] is an address [ptr] into an explicit store of
      node records, so that aliasing between the membership maps, the
      callers and the snapshots is visible;
    - a Go [map[string]*hexatype.Node] is a [gmap string ptr];
    - a computation that can panic, or whose loop is bounded by fuel in
      the model, returns a [run]. *)

From Stdlib Require Import ZArith List Lia.
From Stdlib.Strings Require Import Byte.
From stdpp Require Import base option list gmap strings.

Local Open Scope Z_scope.

(** ** Results of Go computations *)

Inductive run (A : Type) : Type :=
| Ret (a : A)
| Panic
| OutOfFuel.
Arguments Ret {A} a.
Arguments Panic {A}.
Arguments OutOfFuel {A}.

#[export] Instance run_ret : MRet run := λ A a, Ret a.
#[export] Instance run_bind : MBind run := λ A B f c,
  match c with
  | Ret a => f a
  | Panic => Panic
  | OutOfFuel => OutOfFuel
  end.

(** Go's [error] values of this package. *)
Inductive error : Type :=
| errNodeExists
| errNodeNotFound (hostname : string)
| errTupleNotFound.

(** ** Bytes as map keys *)

#[export] Instance byte_eq_dec : EqDecision byte.
Proof.
  intros a b. destruct (decide (Byte.to_N a = Byte.to_N b)) as [e|n].
  - left. pose proof (Byte.of_to_N a) as Ha. pose proof (Byte.of_to_N b) as Hb.
    rewrite e in Ha. congruence.
  - right. intros ->. exact (n eq_refl).
Defined.

#[export] Instance byte_countable : Countable byte :=
  inj_countable Byte.to_N Byte.of_N Byte.of_to_N.

(** ** Bytes and [math/big] *)

Definition Z_of_byte (b : byte) : Z := Z.of_N (Byte.to_N b).

Definition byte_of_Z (z : Z) : byte :=
  match Byte.of_N (Z.to_N (z mod 256)) with
  | Some b => b
  | None => "000"%byte
  end.

(** [make([]byte, n)] *)
Definition make_bytes (n : Z) : list byte := replicate (Z.to_nat n) "000"%byte.

(** The unsigned big-endian number a byte slice denotes. *)
Fixpoint be_value (a : list byte) : Z :=
  match a with
  | [] => 0
  | x :: a' => Z_of_byte x * 256 ^ Z.of_nat (length a') + be_value a'
  end.

(** [big.Int.Bytes]: the big-endian bytes of the absolute value, without
    leading zero bytes (so [0] gives the empty slice). *)
Fixpoint Bytes_loop (fuel : nat) (x : Z) (acc : list byte) : list byte :=
  match fuel with
  | O => acc
  | S fuel' =>
      if x =? 0 then acc
      else Bytes_loop fuel' (x / 256) (byte_of_Z x :: acc)
  end.

Definition Bytes (x : Z) : list byte :=
  Bytes_loop (S (Z.to_nat (Z.log2 (Z.abs x)))) (Z.abs x) [].

(** [x] is written with exactly [k] base-256 digits. *)
Definition has_digits (k : nat) (x : Z) : Prop :=
  match k with
  | O => x = 0
  | S k' => 256 ^ Z.of_nat k' ≤ x < 256 ^ Z.of_nat k
  end.

(** [big.Int.Exp] with a nil modulus: x**y, and 1 when y <= 0. *)
Definition big_Exp (x y : Z) : Z := if y <=? 0 then 1 else x ^ y.

(** [big.Int.Div] on a non-zero divisor: Euclidean division. *)
Definition big_Div (x y : Z) : Z :=
  if 0 <? y then x / y else - (x / - y).

(** [bytes.Compare]: lexicographic, a proper prefix is smaller. *)
Fixpoint lex (a b : list byte) : comparison :=
  match a, b with
  | [], [] => Eq
  | [], _ :: _ => Lt
  | _ :: _, [] => Gt
  | x :: a', y :: b' =>
      match Z_of_byte x ?= Z_of_byte y with
      | Eq => lex a' b'
      | c => c
      end
  end.

Definition Compare (a b : list byte) : Z :=
  match lex a b with
  | Lt => -1
  | Eq => 0
  | Gt => 1
  end.

(** Two's complement wrap-around of [int64] arithmetic. *)
Definition wrap64 (z : Z) : Z := (z + 2 ^ 63) mod 2 ^ 64 - 2 ^ 63.

(** ** Affinity groups *)

(** Address of a [hexatype.Node] record. *)
Definition ptr := positive.

Record affinityGroup : Type := mkGroup {
  id : list byte;
  index : Z;
  m : gmap string ptr
}.

Definition newAffinityGroup (id : list byte) (index : Z) : affinityGroup :=
  {| id := id; index := index; m := ∅ |}.

Abbreviation affinityGroups := (list affinityGroup) (only parsing).

(** [affinityGroups.get].  [l] is [len(ct)], fixed before the loop; [arr]
    is the current sub-slice.  Every iteration strictly shortens [arr], so
    [length ct] iterations are enough (see [get_total]). *)
Fixpoint get_loop (fuel : nat) (l : nat) (arr : affinityGroups)
    (hid : list byte) : run affinityGroup :=
  match fuel with
  | O => OutOfFuel
  | S fuel' =>
      let i := (length arr / 2)%nat in
      match arr !! i with
      | None => Panic
      | Some gi =>
          if negb (Nat.eqb i 0) && negb (Nat.eqb i l) then
            let s := Compare hid (id gi) in
            if s <? 0 then get_loop fuel' l (take i arr) hid
            else if 0 <? s then get_loop fuel' l (drop i arr) hid
            else Ret gi
          else Ret gi
      end
  end.

Definition get (ct : affinityGroups) (hid : list byte) : run affinityGroup :=
  get_loop (S (length ct)) (length ct) ct hid.

(** The boundary of a group as a number, and what it means for [g] to be
    the group of [gs] with the greatest lower boundary not above [v]. *)
Definition boundary (g : affinityGroup) : Z := be_value (id g).

Definition locates (gs : affinityGroups) (v : list byte) (g : affinityGroup) : Prop :=
  g ∈ gs ∧ boundary g ≤ be_value v ∧
  ∀ g', g' ∈ gs → boundary g' ≤ be_value v → boundary g' ≤ boundary g.

Definition increasing (arr : affinityGroups) : Prop :=
  ∀ j k gj gk, arr !! j = Some gj → arr !! k = Some gk → (j < k)%nat →
    boundary gj < boundary gk.

(** Boundary ordering, as the specification words it for a group count
    [N] and a hash length [L]: exactly [N] groups, each boundary strictly
    below the next one (by [bytes.Compare], the order [get] searches with),
    an all-zero boundary for group 0, and every boundary [L] bytes long.
    It is stated on the result of [genAffinityGroups], defined below. *)
Definition boundary_ordering_of (gs : affinityGroups) (N L : Z) : Prop :=
  Z.of_nat (length gs) = N ∧
  (∀ i gi gj, gs !! i = Some gi → gs !! S i = Some gj →
     Compare (id gi) (id gj) < 0) ∧
  (∃ g0, gs !! 0%nat = Some g0 ∧ Forall (λ b, b = "000"%byte) (id g0)) ∧
  (∀ g, g ∈ gs → Z.of_nat (length (id g)) = L).

(** [genAffinityGroups].  The loop over [i = 1 .. numGroups-1] fills the
    slots in increasing order. *)
Definition genAffinityGroups (numGroups hashSize : Z) : run affinityGroups :=
  let keyspace := big_Exp 2 (wrap64 (hashSize * 8)) in
  if numGroups =? 0 then Panic (* division by zero *)
  else
    let groupSize := big_Div keyspace numGroups in
    if (numGroups <? 0) || (hashSize <? 0) then Panic (* make: len out of range *)
    else
      Ret (newAffinityGroup (make_bytes hashSize) 0 ::
           ((λ i, newAffinityGroup (Bytes (i * groupSize)) i) <$>
              seqZ 1 (numGroups - 1))).

Definition boundary_ordering (N L : Z) : Prop :=
  ∃ gs, genAffinityGroups N L = Ret gs ∧ boundary_ordering_of gs N L.

(** [ct[j]] for a Go [int] index: out of range is a panic ([None] here). *)
Definition at_index {A} (ct : list A) (j : Z) : option A :=
  if j <? 0 then None else ct !! Z.to_nat j.

(** ** Node records and the store they live in *)

Section Kelips.

(** [vivaldi.Coordinate] is opaque; the package only clones it. *)
Variable Coordinate : Type.
Variable Clone : Coordinate → Coordinate.

(** Modulus of the unsigned [Heartbeats] counter of [hexatype.Node]
    (2^32 for a [uint32] field). *)
Variable hbModulus : Z.

(** [TupleHost] is a byte slice; [tuple.ID(h)] hashes it with the
    configured hash function and [tuple.String()] prints it as a host
    name.  Both come from outside this package's files. *)
Variable tuple_ID : list byte → list byte.
Variable tuple_String : list byte → string.

Record Node : Type := mkNode {
  Host : string;
  Heartbeats : Z;
  LastSeen : Z;
  Coordinates : Coordinate
}.

Abbreviation store := (gmap ptr Node).

(** [group.count] *)
Definition count (group : affinityGroup) : Z := Z.of_nat (size (m group)).

(** Dereferencing a slice of node pointers; an invalid pointer panics. *)
Fixpoint deref_all (σ : store) (ps : list ptr) : run (list Node) :=
  match ps with
  | [] => Ret []
  | p :: ps' =>
      match σ !! p with
      | None => Panic
      | Some n => ns ← deref_all σ ps'; Ret (n :: ns)
      end
  end.

(** [group.Nodes]: copies of all member records, in map iteration order. *)
Definition Nodes (σ : store) (group : affinityGroup) : run (list Node) :=
  deref_all σ (map_to_list (m group)).*2.

(** [group.getNode]: the pair [(n, ok)] as an option. *)
Definition getNode (group : affinityGroup) (hostname : string) : option ptr :=
  m group !! hostname.

(** [group.pingNode].  [now] is [time.Now().UnixNano()]. *)
Definition pingNode (hostname : string) (coord : Coordinate) (rtt : Z) (now : Z)
    (σ : store) (group : affinityGroup) : run (store * affinityGroup * option error) :=
  match m group !! hostname with
  | None => Ret (σ, group, Some (errNodeNotFound hostname))
  | Some node =>
      match σ !! node with
      | None => Panic
      | Some n =>
          let n' := {| Host := Host n;
                       Heartbeats := (Heartbeats n + 1) mod hbModulus;
                       LastSeen := now;
                       Coordinates := Clone coord |} in
          Ret (<[node := n']> σ,
               {| id := id group; index := index group;
                  m := <[hostname := node]> (m group) |},
               None)
      end
  end.

(** [group.removeNode] *)
Definition removeNode (hostname : string)
    (σ : store) (group : affinityGroup) : run (store * affinityGroup * option error) :=
  match m group !! hostname with
  | None => Ret (σ, group, Some (errNodeNotFound hostname))
  | Some _ =>
      Ret (σ,
           {| id := id group; index := index group;
              m := delete hostname (m group) |},
           None)
  end.

(** [group.addNode].  [node] is the caller's pointer: it is written
    through and then stored, not copied. *)
Definition addNode (node : ptr) (force : bool) (now : Z)
    (σ : store) (group : affinityGroup) : run (store * affinityGroup * option error) :=
  match σ !! node with
  | None => Panic
  | Some n =>
      if bool_decide (is_Some (m group !! Host n)) && negb force then
        Ret (σ, group, Some errNodeExists)
      else
        let n' := {| Host := Host n;
                     Heartbeats := Heartbeats n;
                     LastSeen := now;
                     Coordinates := Coordinates n |} in
        Ret (<[node := n']> σ,
             {| id := id group; index := index group;
                m := <[Host n := node]> (m group) |},
             None)
  end.

(** The record a group holds for a host, and its heartbeat counter. *)
Definition record_of (σ : store) (group : affinityGroup) (hostname : string)
    : option Node :=
  p ← m group !! hostname; σ !! p.

Definition heartbeat_of (σ : store) (group : affinityGroup) (hostname : string)
    : option Z :=
  Heartbeats <$> record_of σ group hostname.

(** The three membership calls as data, to speak about sequences of them. *)
Inductive call : Type :=
| AddNode (node : ptr) (force : bool) (now : Z)
| RemoveNode (hostname : string)
| PingNode (hostname : string) (coord : Coordinate) (rtt now : Z).

Definition exec (c : call) (σ : store) (group : affinityGroup)
    : run (store * affinityGroup * option error) :=
  match c with
  | AddNode node force now => addNode node force now σ group
  | RemoveNode hostname => removeNode hostname σ group
  | PingNode hostname coord rtt now => pingNode hostname coord rtt now σ group
  end.

(** The states a sequence of calls goes through, the first one included.
    A call that returns an error leaves the run going. *)
Fixpoint trace (cs : list call) (σ : store) (group : affinityGroup)
    : list (store * affinityGroup) :=
  (σ, group) ::
  match cs with
  | [] => []
  | c :: cs' =>
      match exec c σ group with
      | Ret (σ', group', _) => trace cs' σ' group'
      | _ => []
      end
  end.

(** The heartbeat counter of [hostname] does not decrease from any state
    of the trace to the next one in which the host is still a member. *)
Definition heartbeat_monotone (hostname : string)
    (tr : list (store * affinityGroup)) : Prop :=
  ∀ (i : nat) s s' hb hb',
    tr !! i = Some s → tr !! S i = Some s' →
    heartbeat_of s.1 s.2 hostname = Some hb →
    heartbeat_of s'.1 s'.2 hostname = Some hb' →
    hb ≤ hb'.

(** Heartbeat monotonicity over all sequences of membership calls, from
    every state and for every host. *)
Definition heartbeats_never_decrease : Prop :=
  ∀ cs (σ : store) group hostname,
    heartbeat_monotone hostname (trace cs σ group).

(** A call that neither replaces a member's record by another record
    through a forced [addNode], nor pings a counter that is at the top of
    its range. *)
Definition keeps_counters (c : call) (σ : store) (group : affinityGroup) : Prop :=
  match c with
  | AddNode node force _ =>
      force = true →
      ∀ n p, σ !! node = Some n → m group !! Host n = Some p → p = node
  | RemoveNode _ => True
  | PingNode hostname _ _ _ =>
      ∀ p n, m group !! hostname = Some p → σ !! p = Some n →
        0 ≤ Heartbeats n ∧ Heartbeats n + 1 < hbModulus
  end.

Fixpoint all_keep_counters (cs : list call) (σ : store) (group : affinityGroup)
    : Prop :=
  match cs with
  | [] => True
  | c :: cs' =>
      keeps_counters c σ group ∧
      match exec c σ group with
      | Ret (σ', group', _) => all_keep_counters cs' σ' group'
      | _ => True
      end
  end.

(** ** The group list: counting, iterating, walking back *)

(** [affinityGroups.nodeCount] *)
Definition nodeCount (ct : affinityGroups) : Z :=
  foldl (λ c g, c + count g) 0 ct.

(** The inner loop of [iterNodes]: call [f] on each node until it
    answers [false].  The visitor may allocate, so the store is threaded
    through it. *)
Fixpoint visit_nodes {A} (f : Node → store → A → store * A * bool)
    (nodes : list Node) (σ : store) (a : A) : store * A * bool :=
  match nodes with
  | [] => (σ, a, true)
  | node :: rest =>
      let '(σ', a', continue) := f node σ a in
      if continue then visit_nodes f rest σ' a' else (σ', a', false)
  end.

(** [affinityGroups.iterNodes] *)
Fixpoint iterNodes {A} (f : Node → store → A → store * A * bool)
    (ct : affinityGroups) (σ : store) (a : A) : run (store * A) :=
  match ct with
  | [] => Ret (σ, a)
  | group :: rest =>
      nodes ← Nodes σ group;
      let '(σ', a', continue) := visit_nodes f nodes σ a in
      if continue then iterNodes f rest σ' a' else Ret (σ', a')
  end.

(** [affinityGroups.nextClosestGroup].  [gidx] is [g.index]; the loop is
    the [RETRY] label.  On a list whose groups carry their own position
    as [index] the loop runs at most [length ct] times. *)
Fixpoint nextClosestGroup_loop (fuel : nat) (σ : store) (ct : affinityGroups)
    (gidx : Z) (group : affinityGroup) (nodes : list Node)
    : run (option affinityGroup) :=
  match fuel with
  | O => OutOfFuel
  | S fuel' =>
      if Nat.eqb (length nodes) 0 then
        let j := if index group =? 0 then Z.of_nat (length ct) - 1
                 else index group - 1 in
        match at_index ct j with
        | None => Panic
        | Some group' =>
            nodes' ← Nodes σ group';
            if negb (index group' =? gidx) then
              nextClosestGroup_loop fuel' σ ct gidx group' nodes'
            else Ret None
        end
      else Ret (Some group)
  end.

Definition nextClosestGroup (σ : store) (ct : affinityGroups) (g : affinityGroup)
    : run (option affinityGroup) :=
  nodes ← Nodes σ g;
  nextClosestGroup_loop (S (length ct)) σ ct (index g) g nodes.

(** A group with at least one member. *)
Definition has_nodes (group : affinityGroup) : bool :=
  bool_decide (m group ≠ ∅).

(** Every group of the list carries its position as [index]. *)
Definition well_indexed (ct : affinityGroups) : Prop :=
  ∀ (i : nat) g, ct !! i = Some g → index g = Z.of_nat i.

(** Every member pointer of the group leads to a record of the store. *)
Definition valid_ptrs (σ : store) (group : affinityGroup) : Prop :=
  ∀ h p, m group !! h = Some p → is_Some (σ !! p).

(** The groups met when walking back from position [k] (not included),
    wrapping past position 0 to the last one, up to position [gi] (not
    included). *)
Definition walk_back (ct : affinityGroups) (gi k : nat) : list affinityGroup :=
  if decide (k ≤ gi)%nat then reverse (take k ct) ++ reverse (drop (S gi) ct)
  else reverse (drop (S gi) (take k ct)).

(** ** The tuple directory *)

Abbreviation TupleHost := (list byte) (only parsing).
Abbreviation directory := (gmap (list byte) (list (list byte))) (only parsing).

(** The hosts recorded for a key; none when the key was never inserted. *)
Definition hosts_of (d : directory) (key : list byte) : list TupleHost :=
  default [] (d !! key).

(** Modelled from the spec: the tuple directory [InmemTuples], whose
    source file is not part of the sources at hand.  [insert] adds the host
    to the key's host set and does nothing (and reports no error) when it
    is already there. *)
Definition tuples_Insert (key : list byte) (host : TupleHost)
    (d : directory) : directory * option error :=
  if bool_decide (host ∈ hosts_of d key) then (d, None)
  else (<[key := hosts_of d key ++ [host]]> d, None).

(** Modelled from the spec: [delete(key, host)] of the tuple directory
    removes the host from the key's set and does nothing when it is
    absent. *)
Definition tuples_Delete (key : list byte) (host : TupleHost)
    (d : directory) : directory * option error :=
  if bool_decide (host ∈ hosts_of d key) then
    (<[key := filter (λ h, h ≠ host) (hosts_of d key)]> d, None)
  else (d, None).

(** Modelled from the spec: [get(key)] of the tuple directory returns the
    key's hosts, or [NotFound] when the key has no entries. *)
Definition tuples_Get (key : list byte) (d : directory)
    : list TupleHost * option error :=
  match hosts_of d key with
  | [] => ([], Some errTupleNotFound)
  | hosts => (hosts, None)
  end.

(** Modelled from the spec: [count()] of the tuple directory is the number
    of keys with at least one host. *)
Definition tuples_Count (d : directory) : Z :=
  Z.of_nat (size (filter (λ kv, kv.2 ≠ []) d)).

(** Modelled from the spec: [iterate(visit)] of the tuple directory is a
    finite single pass over all (key, hosts) pairs that stops as soon as
    the visitor answers [false]. *)
Fixpoint visit_tuples {A} (visit : list byte → list TupleHost → A → A * bool)
    (kvs : list (list byte * list TupleHost)) (a : A) : A :=
  match kvs with
  | [] => a
  | (key, hosts) :: rest =>
      let '(a', continue) := visit key hosts a in
      if continue then visit_tuples visit rest a' else a'
  end.

Definition tuples_Iter {A} (visit : list byte → list TupleHost → A → A * bool)
    (d : directory) (a : A) : A :=
  visit_tuples visit (map_to_list d) a.

(** Modelled from the spec: [expireHost(host)] of the tuple directory
    removes the host from every key's set and reports whether any removal
    occurred. *)
Definition tuples_ExpireHost (host : TupleHost) (d : directory)
    : directory * bool :=
  (filter (λ h, h ≠ host) <$> d,
   negb (bool_decide (map_Forall (λ _ hosts, host ∉ hosts) d))).

(** ** The local group facade *)

Record localGroup : Type := mkLocalGroup {
  idx : Z;
  tuples : directory;
  groups : affinityGroups
}.

(** The loop of [localGroup.Lookup] over the key's tuples. *)
Fixpoint Lookup_loop (ct : affinityGroups) (hosts : list TupleHost)
    (nodes : list ptr) : run (list ptr) :=
  match hosts with
  | [] => Ret nodes
  | tuple :: rest =>
      tg ← get ct (tuple_ID tuple);
      match getNode tg (tuple_String tuple) with
      | Some node => Lookup_loop ct rest (nodes ++ [node])
      | None => Lookup_loop ct rest nodes
      end
  end.

(** [localGroup.Lookup]: the pair [(nodes, err)]. *)
Definition Lookup (lrpc : localGroup) (key : list byte)
    : run (list ptr * option error) :=
  match tuples_Get key (tuples lrpc) with
  | (_, Some err) => Ret ([], Some err)
  | (hosts, None) =>
      nodes ← Lookup_loop (groups lrpc) hosts [];
      Ret (nodes, None)
  end.

Record Tuple : Type := mkTuple {
  Key : list byte;
  Hosts : list (list byte)
}.

(** A [Snapshot] holds pointers to node records of its own. *)
Record Snapshot : Type := mkSnapshot {
  Tuples : list Tuple;
  SnapNodes : list ptr
}.

(** [&node] on the visitor's parameter: a new record at an unused address. *)
Definition alloc (σ : store) (node : Node) : store * ptr :=
  let p := fresh (dom σ) in (<[p := node]> σ, p).

(** The two closures of [localGroup.Snapshot]: the tuple visitor copies
    the key's hosts into a new [Tuple], the node visitor stores the
    address of its own copy of the node. *)
Definition collect_tuple (key : list byte) (hosts : list TupleHost)
    (acc : list Tuple) : list Tuple * bool :=
  (acc ++ [{| Key := key; Hosts := hosts |}], true).

Definition collect_node (node : Node) (σ : store) (acc : list ptr)
    : store * list ptr * bool :=
  let '(σ', p) := alloc σ node in (σ', acc ++ [p], true).

(** [localGroup.Snapshot] *)
Definition take_Snapshot (lrpc : localGroup) (σ : store) : run (store * Snapshot) :=
  let tps := tuples_Iter collect_tuple (tuples lrpc) [] in
  '(σ', nodes) ← iterNodes collect_node (groups lrpc) σ [];
  Ret (σ', {| Tuples := tps; SnapNodes := nodes |}).

(** What a reader of a snapshot sees: its tuples and the records its
    node pointers lead to. *)
Definition snapshot_view (σ : store) (s : Snapshot)
    : list Tuple * list (option Node) :=
  (Tuples s, (λ p, σ !! p) <$> SnapNodes s).

(** Mutations of the live system: a directory update, or a membership
    call on the group at position [gi] of the group list. *)
Inductive mutation : Type :=
| MInsert (key : list byte) (host : TupleHost)
| MDelete (key : list byte) (host : TupleHost)
| MGroup (gi : nat) (c : call).

Definition apply_mutation (mu : mutation) (σ : store) (lrpc : localGroup)
    : run (store * localGroup) :=
  match mu with
  | MInsert key host =>
      Ret (σ, {| idx := idx lrpc;
                 tuples := (tuples_Insert key host (tuples lrpc)).1;
                 groups := groups lrpc |})
  | MDelete key host =>
      Ret (σ, {| idx := idx lrpc;
                 tuples := (tuples_Delete key host (tuples lrpc)).1;
                 groups := groups lrpc |})
  | MGroup gi c =>
      match groups lrpc !! gi with
      | None => Panic
      | Some group =>
          '(σ', group', _) ← exec c σ group;
          Ret (σ', {| idx := idx lrpc; tuples := tuples lrpc;
                      groups := <[gi := group']> (groups lrpc) |})
      end
  end.

(** A mutation that does not hand one of the snapshot's own records to
    [addNode]. *)
Definition spares (s : Snapshot) (mu : mutation) : Prop :=
  match mu with
  | MGroup _ (AddNode node _ _) => node ∉ SnapNodes s
  | _ => True
  end.

(** [ps] are new addresses of [σ'] holding the records [ns], and [σ']
    keeps every record of [σ]. *)
Definition allocated (σ σ' : store) (ps : list ptr) (ns : list Node) : Prop :=
  Forall2 (λ p n, σ' !! p = Some n) ps ns ∧
  (∀ p, p ∈ ps → σ !! p = None) ∧
  (∀ q n, σ !! q = Some n → σ' !! q = Some n).

Fixpoint apply_mutations (mus : list mutation) (σ : store) (lrpc : localGroup)
    : run (store * localGroup) :=
  match mus with
  | [] => Ret (σ, lrpc)
  | mu :: rest =>
      '(σ', lrpc') ← apply_mutation mu σ lrpc;
      apply_mutations rest σ' lrpc'
  end.

(** ** Two statements that the code does not keep in full *)

(** Every ping of a member raises its heartbeat counter by exactly one. *)
Definition pingNode_increments : Prop :=
  ∀ (σ : store) group hostname p n coord rtt now,
    m group !! hostname = Some p → σ !! p = Some n →
    ∃ σ' group' r,
      pingNode hostname coord rtt now σ group = Ret (σ', group', None) ∧
      record_of σ' group' hostname = Some r ∧
      Heartbeats r = Heartbeats n + 1.

(** No later sequence of mutations changes what a snapshot shows. *)
Definition snapshot_immutable : Prop :=
  ∀ (lrpc : localGroup) (σ σ' : store) (s : Snapshot) (mus : list mutation)
    (σ'' : store) (lrpc'' : localGroup),
    (∀ g, g ∈ groups lrpc → valid_ptrs σ g) →
    take_Snapshot lrpc σ = Ret (σ', s) →
    apply_mutations mus σ' lrpc = Ret (σ'', lrpc'') →
    snapshot_view σ'' s = snapshot_view σ' s.

(** ** [LookupGroupNodes] *)

(** [h := lrpc.hashFunc(); h.Write(key); h.Sum(nil)]: the digest of the
    key under the configured hash function. *)
Variable hashFunc : list byte → list byte.

(** Whether the toolchain gives the variable of a [range] loop a new
    instance in every iteration (Go 1.22 and later) or one instance for
    the whole loop (earlier versions).  [&nd] depends on it. *)
Variable loopvar_per_iteration : bool.

(** [for _, nd := range n { nodes = append(nodes, &nd) }] with one
    instance of [nd] per iteration. *)
Fixpoint range_fresh (n : list Node) (σ : store) (nodes : list ptr)
    : store * list ptr :=
  match n with
  | [] => (σ, nodes)
  | nd :: rest =>
      let '(σ', p) := alloc σ nd in range_fresh rest σ' (nodes ++ [p])
  end.

(** The same loop with one instance of [nd], at address [p], for the
    whole loop: every iteration overwrites it. *)
Fixpoint range_shared (p : ptr) (n : list Node) (σ : store) (nodes : list ptr)
    : store * list ptr :=
  match n with
  | [] => (σ, nodes)
  | nd :: rest => range_shared p rest (<[p := nd]> σ) (nodes ++ [p])
  end.

(** [localGroup.LookupGroupNodes]: the triple of the new store, the
    returned pointers and the error. *)
Definition LookupGroupNodes (lrpc : localGroup) (key : list byte) (σ : store)
    : run (store * list ptr * option error) :=
  group ← get (groups lrpc) (hashFunc key);
  n ← Nodes σ group;
  let '(σ', nodes) :=
    if loopvar_per_iteration then range_fresh n σ []
    else range_shared (fresh (dom σ)) n σ [] in
  Ret (σ', nodes, None).

(** ** Well-formed states *)

(** Every member of the group is stored under the host name of its own
    record. *)
Definition keyed (σ : store) (group : affinityGroup) : Prop :=
  ∀ h p, m group !! h = Some p → ∃ n, σ !! p = Some n ∧ Host n = h.

(** A call whose node argument, if any, leads to a record. *)
Definition call_ok (c : call) (σ : store) : Prop :=
  match c with
  | AddNode node _ _ => is_Some (σ !! node)
  | _ => True
  end.

(** A mutation addressed to an existing group, with a call that is ok. *)
Definition mutation_ok (mu : mutation) (σ : store) (lrpc : localGroup) : Prop :=
  match mu with
  | MGroup gi c => (gi < length (groups lrpc))%nat ∧ call_ok c σ
  | _ => True
  end.

(** Mutations that are ok one after the other. *)
Fixpoint mutations_ok (mus : list mutation) (σ : store) (lrpc : localGroup)
    : Prop :=
  match mus with
  | [] => True
  | mu :: rest =>
      mutation_ok mu σ lrpc ∧
      match apply_mutation mu σ lrpc with
      | Ret (σ', lrpc') => mutations_ok rest σ' lrpc'
      | _ => True
      end
  end.

(** Two groups with the same boundary and position. *)
Definition same_place (g g' : affinityGroup) : Prop :=
  id g = id g' ∧ index g = index g'.

(** The host that a call names. *)
Definition call_host (c : call) (σ : store) : option string :=
  match c with
  | AddNode node _ _ => Host <$> σ !! node
  | RemoveNode hostname => Some hostname
  | PingNode hostname _ _ _ => Some hostname
  end.

(** ** Stopping an iteration *)

(** A visitor that records every node it is shown and asks to go on as
    long as [keep] holds of the node. *)
Definition collect_while (keep : Node → bool) (node : Node) (σ : store)
    (acc : list Node) : store * list Node * bool :=
  (σ, acc ++ [node], keep node).

(** The nodes of [l] up to and including the first one [keep] rejects. *)
Fixpoint through_first_stop (keep : Node → bool) (l : list Node) : list Node :=
  match l with
  | [] => []
  | x :: rest => if keep x then x :: through_first_stop keep rest else [x]
  end.

(** ** Small concrete states *)

(** They serve to run the statements below on actual inputs.  [c] is any
    coordinate. *)
Definition ex_node (hostname : string) (hb : Z) (c : Coordinate) : Node :=
  {| Host := hostname; Heartbeats := hb; LastSeen := 0; Coordinates := c |}.

(** Two records for host [A] (addresses 1 and 2) and one for host [B]. *)
Definition ex_store (c : Coordinate) : store :=
  <[3%positive := ex_node "B" 7 c]>
    (<[2%positive := ex_node "A" 0 c]> {[ 1%positive := ex_node "A" 0 c ]}).

Definition ex_empty_group : affinityGroup := newAffinityGroup [] 0.

(** A group that lists host [A] with the record at address 1. *)
Definition ex_group : affinityGroup :=
  {| id := []; index := 0; m := {[ "A"%string := 1%positive ]} |}.

(** Join, one heartbeat, then a forced join with the other record. *)
Definition ex_calls (c : Coordinate) : list call :=
  [AddNode 1%positive false 10; PingNode "A" c 0 20; AddNode 2%positive true 30].

(** Join, two heartbeats, a failing second join, a leave of another host. *)
Definition ex_quiet_calls (c : Coordinate) : list call :=
  [AddNode 1%positive false 10; PingNode "A" c 5 20; PingNode "A" c 6 30;
   AddNode 2%positive false 40; RemoveNode "B"].

(** A facade with one key held by one host, and three groups of which
    only the first has a member. *)
Definition ex_lrpc : localGroup :=
  {| idx := 0;
     tuples := {[ [Byte.x6b] := [[Byte.x41]] ]};
     groups := [ex_group;
                newAffinityGroup [Byte.x55] 1;
                newAffinityGroup [Byte.xaa] 2] |}.

(** Host [A] with a 32-bit heartbeat counter at the top of its range. *)
Definition ex_top_store (c : Coordinate) : store :=
  {[ 1%positive := ex_node "A" (2 ^ 32 - 1) c ]}.

(** The three groups that [genAffinityGroups 3 1] builds. *)
Definition ex_ring : list affinityGroup :=
  [newAffinityGroup [Byte.x00] 0;
   newAffinityGroup [Byte.x55] 1;
   newAffinityGroup [Byte.xaa] 2].

(** Host [A] joins group 0 and is pinged, a tuple is inserted, host [B]
    joins group 2, and host [A] leaves. *)
Definition ex_mutations (c : Coordinate) : list mutation :=
  [MGroup 0 (AddNode 1%positive false 10);
   MGroup 0 (PingNode "A" c 3 20);
   MInsert [Byte.x6b] [Byte.x41];
   MGroup 2 (AddNode 3%positive false 30);
   MGroup 0 (RemoveNode "A")].

(** ** The package's test of the tuple directory *)

(** [Test_InmemTuples], run on the directory modelled above: keys
    [filetuple0] .. [filetuple9], hosts [127.0.0.1:port].  The result is
    [true] when none of the test's checks fails. *)
Definition test_key (i : Z) : list byte :=
  [Byte.x66; Byte.x69; Byte.x6c; Byte.x65; Byte.x74; Byte.x75; Byte.x70;
   Byte.x6c; Byte.x65; byte_of_Z (48 + i)].

Definition NewHost (port : Z) : list byte :=
  [Byte.x7f; Byte.x00; Byte.x00; Byte.x01; byte_of_Z (port / 256); byte_of_Z port].

Definition test_add (n : Z) (host : Z → list byte)
    (ft : gmap (list byte) (list (list byte))) : gmap (list byte) (list (list byte)) :=
  foldl (λ d i, (tuples_Insert (test_key i) (host i) d).1) ft (seqZ 0 n).

Definition test_del (n : Z) (host : list byte)
    (ft : gmap (list byte) (list (list byte))) : gmap (list byte) (list (list byte)) :=
  foldl (λ d i, (tuples_Delete (test_key i) host d).1) ft (seqZ 0 n).

Definition test_all_len (n : Z) (len : nat)
    (ft : gmap (list byte) (list (list byte))) : bool :=
  forallb (λ i, Nat.eqb (length (tuples_Get (test_key i) ft).1) len) (seqZ 0 n).

Definition Test_InmemTuples : bool :=
  let ft0 := test_add 10 (λ i, NewHost (1234 + i)) ∅ in
  let ft1 := test_add 5 (λ _, NewHost 21234) ft0 in
  let ft2 := (tuples_Insert (test_key 0) (NewHost 21234) ft1).1 in
  let found :=
    forallb (λ i, negb (Nat.eqb (length (tuples_Get (test_key i) ft2).1) 0))
      (seqZ 0 10) in
  let two := test_all_len 5 2 ft2 in
  let ft3 := test_del 5 (NewHost 21234) ft2 in
  let one := test_all_len 10 1 ft3 in
  let ft4 := test_add 5 (λ _, NewHost 11234) ft3 in
  let '(ft5, removed) := tuples_ExpireHost (NewHost 11234) ft4 in
  let one_again := test_all_len 10 1 ft5 in
  found && two && one && removed && one_again.

(** * Properties *)

(** ** Bytes, big-endian values and comparison *)

Lemma Z_of_byte_range (b : byte) : 0 ≤ Z_of_byte b < 256.
Proof.
  unfold Z_of_byte. pose proof (Byte.to_N_bounded b). lia.
Qed.

Lemma Z_of_byte_inj (a b : byte) : Z_of_byte a = Z_of_byte b → a = b.
Proof.
  unfold Z_of_byte. intros H. apply N2Z.inj in H.
  pose proof (Byte.of_to_N a) as Ha. rewrite H, Byte.of_to_N in Ha. congruence.
Qed.

Lemma Z_of_byte_of_Z (z : Z) : Z_of_byte (byte_of_Z z) = z mod 256.
Proof.
  unfold Z_of_byte, byte_of_Z.
  assert (Hr : 0 ≤ z mod 256 < 256) by (apply Z.mod_pos_bound; lia).
  destruct (Byte.of_N (Z.to_N (z mod 256))) as [b|] eqn:E.
  - apply Byte.to_of_N in E. rewrite E. lia.
  - apply Byte.of_N_None_iff in E. lia.
Qed.

Lemma be_value_range (a : list byte) : 0 ≤ be_value a < 256 ^ Z.of_nat (length a).
Proof.
  induction a as [|x a IH]; simpl be_value; simpl length.
  - simpl. lia.
  - pose proof (Z_of_byte_range x).
    rewrite Nat2Z.inj_succ, Z.pow_succ_r by lia. nia.
Qed.

Lemma be_value_replicate_zero (n : nat) : be_value (replicate n "000"%byte) = 0.
Proof.
  induction n as [|n IH]; simpl; [done|]. rewrite IH. reflexivity.
Qed.

Lemma lex_refl (a : list byte) : lex a a = Eq.
Proof.
  induction a as [|x a IH]; simpl; [done|]. by rewrite Z.compare_refl.
Qed.

Lemma lex_eq (a b : list byte) : lex a b = Eq → a = b.
Proof.
  revert b. induction a as [|x a IH]; intros [|y b]; simpl; try done.
  destruct (Z.compare_spec (Z_of_byte x) (Z_of_byte y)) as [E| |]; try done.
  intros H. apply Z_of_byte_inj in E. f_equal; auto.
Qed.

(** On slices of one length, [bytes.Compare] orders by numeric value. *)
Lemma lex_be_value (a b : list byte) :
  length a = length b → lex a b = (be_value a ?= be_value b).
Proof.
  revert b. induction a as [|x a IH]; intros [|y b] Hlen; simpl in *; try done.
  injection Hlen as Hlen. rewrite IH by done. rewrite <- Hlen.
  pose proof (be_value_range a) as Ha. pose proof (be_value_range b) as Hb.
  rewrite <- Hlen in Hb.
  set (p := 256 ^ Z.of_nat (length a)) in *.
  destruct (Z.compare_spec (Z_of_byte x) (Z_of_byte y)) as [E|E|E].
  - rewrite E. destruct (Z.compare_spec (be_value a) (be_value b));
      symmetry; [apply Z.compare_eq_iff|apply Z.compare_lt_iff|apply Z.compare_gt_iff]; lia.
  - symmetry. apply Z.compare_lt_iff. nia.
  - symmetry. apply Z.compare_gt_iff. nia.
Qed.

Lemma Compare_be_value (a b : list byte) :
  length a = length b →
  (Compare a b < 0 ↔ be_value a < be_value b) ∧
  (0 < Compare a b ↔ be_value b < be_value a).
Proof.
  intros Hlen. unfold Compare. rewrite (lex_be_value a b Hlen).
  destruct (Z.compare_spec (be_value a) (be_value b)); lia.
Qed.

Lemma has_digits_div (k : nat) (x : Z) :
  has_digits (S k) x → has_digits k (x / 256).
Proof.
  unfold has_digits. rewrite Nat2Z.inj_succ, Z.pow_succ_r by lia.
  intros [Hlo Hhi]. destruct k as [|k].
  - apply Z.div_small. simpl in *. lia.
  - rewrite Nat2Z.inj_succ, Z.pow_succ_r in * by lia. split.
    + apply Z.div_le_lower_bound; lia.
    + apply Z.div_lt_upper_bound; lia.
Qed.

Lemma Bytes_loop_spec (k : nat) : ∀ (fuel : nat) (x : Z) (acc : list byte),
  has_digits k x → (k ≤ fuel)%nat →
  length (Bytes_loop fuel x acc) = (k + length acc)%nat ∧
  be_value (Bytes_loop fuel x acc) =
    x * 256 ^ Z.of_nat (length acc) + be_value acc.
Proof.
  induction k as [|k IH]; intros fuel x acc Hd Hfuel.
  - simpl in Hd. subst x. destruct fuel; simpl; split; lia.
  - destruct fuel as [|fuel]; [lia|]. simpl Bytes_loop.
    assert (Hx : 0 < x).
    { destruct Hd as [Hlo _]. pose proof (Z.pow_pos_nonneg 256 (Z.of_nat k)). lia. }
    destruct (Z.eqb_spec x 0) as [->|_]; [lia|].
    destruct (IH fuel (x / 256) (byte_of_Z x :: acc) (has_digits_div _ _ Hd))
      as [Hl Hv]; [lia|].
    split.
    + rewrite Hl. simpl. lia.
    + rewrite Hv. simpl be_value. simpl length. rewrite Z_of_byte_of_Z.
      rewrite Nat2Z.inj_succ, Z.pow_succ_r by lia.
      pose proof (Z.div_mod x 256 ltac:(lia)) as Hdm.
      set (q := x / 256) in *. set (r := x mod 256) in *.
      set (p := 256 ^ Z.of_nat (length acc)).
      assert (Hxp : x * p = (256 * q + r) * p) by (f_equal; exact Hdm).
      rewrite Hxp. ring.
Qed.

Lemma Bytes_spec (k : nat) (x : Z) :
  has_digits k x → length (Bytes x) = k ∧ be_value (Bytes x) = x.
Proof.
  intros Hd. unfold Bytes.
  assert (Hx : 0 ≤ x).
  { destruct k; simpl in Hd; [lia|].
    pose proof (Z.pow_pos_nonneg 256 (Z.of_nat k)). lia. }
  rewrite Z.abs_eq by done.
  destruct (Bytes_loop_spec k (S (Z.to_nat (Z.log2 x))) x [] Hd) as [Hl Hv].
  - destruct k as [|k]; [lia|]. destruct Hd as [Hlo _].
    assert (Z.of_nat k ≤ Z.log2 x); [|lia].
    transitivity (Z.log2 (256 ^ Z.of_nat k)); [|by apply Z.log2_le_mono].
    replace 256 with (2 ^ 8) by reflexivity.
    rewrite <- Z.pow_mul_r, Z.log2_pow2 by lia. lia.
  - simpl in *. split; [lia|]. rewrite Hv. lia.
Qed.

(** ** The group list built by [genAffinityGroups] *)

Lemma genAffinityGroups_unfold (N L : Z) :
  1 ≤ N → 0 ≤ L → 8 * L < 2 ^ 63 →
  genAffinityGroups N L =
    Ret (newAffinityGroup (make_bytes L) 0 ::
         ((λ i, newAffinityGroup (Bytes (i * (2 ^ (8 * L) / N))) i) <$>
            seqZ 1 (N - 1))).
Proof.
  intros HN HL HL8. unfold genAffinityGroups.
  destruct (Z.eqb_spec N 0); [lia|].
  destruct (Z.ltb_spec N 0); [lia|].
  destruct (Z.ltb_spec L 0); [lia|]. simpl.
  assert (Hw : wrap64 (L * 8) = 8 * L).
  { unfold wrap64. rewrite Z.mod_small; lia. }
  rewrite Hw. unfold big_Exp, big_Div.
  destruct (Z.ltb_spec 0 N); [|lia].
  destruct (Z.leb_spec (8 * L) 0); [|done].
  replace (8 * L) with 0 by lia. done.
Qed.

Lemma gen_length (N L : Z) (gs : affinityGroups) :
  1 ≤ N → 0 ≤ L → 8 * L < 2 ^ 63 →
  genAffinityGroups N L = Ret gs → Z.of_nat (length gs) = N.
Proof.
  intros HN HL HL8. rewrite genAffinityGroups_unfold by done.
  intros [= <-]. simpl. rewrite length_fmap, length_seqZ. lia.
Qed.

Lemma gen_lookup_0 (N L : Z) (gs : affinityGroups) :
  1 ≤ N → 0 ≤ L → 8 * L < 2 ^ 63 →
  genAffinityGroups N L = Ret gs →
  gs !! 0%nat = Some (newAffinityGroup (make_bytes L) 0).
Proof.
  intros HN HL HL8. rewrite genAffinityGroups_unfold by done.
  by intros [= <-].
Qed.

Lemma gen_lookup_S (N L : Z) (gs : affinityGroups) (i : nat) :
  1 ≤ N → 0 ≤ L → 8 * L < 2 ^ 63 →
  genAffinityGroups N L = Ret gs →
  Z.of_nat (S i) < N →
  gs !! S i =
    Some (newAffinityGroup (Bytes (Z.of_nat (S i) * (2 ^ (8 * L) / N)))
            (Z.of_nat (S i))).
Proof.
  intros HN HL HL8. rewrite genAffinityGroups_unfold by done.
  intros [= <-] Hi. simpl. rewrite list_lookup_fmap, lookup_seqZ_lt by lia.
  simpl. do 3 f_equal; lia.
Qed.

(** Every group of the built list carries its own position as [index]. *)
Lemma gen_index (N L : Z) (gs : affinityGroups) (i : nat) (g : affinityGroup) :
  1 ≤ N → 0 ≤ L → 8 * L < 2 ^ 63 →
  genAffinityGroups N L = Ret gs →
  gs !! i = Some g → index g = Z.of_nat i.
Proof.
  intros HN HL HL8 Hgen Hi.
  assert (Hlen := gen_length N L gs HN HL HL8 Hgen).
  apply lookup_lt_Some in Hi as Hlt.
  destruct i as [|i].
  - rewrite (gen_lookup_0 N L gs) in Hi by done. by injection Hi as <-.
  - rewrite (gen_lookup_S N L gs i) in Hi by (done || lia). by injection Hi as <-.
Qed.

Lemma pow256 (L : Z) : 0 ≤ L → 2 ^ (8 * L) = 256 ^ L.
Proof.
  intros HL. replace 256 with (2 ^ 8) by reflexivity.
  by rewrite <- Z.pow_mul_r by lia.
Qed.

(** With at most 256 groups every non-zero boundary fills all [L] bytes. *)
Lemma boundary_digits (N L i : Z) :
  1 ≤ L → 1 ≤ N ≤ 256 → 1 ≤ i < N →
  has_digits (Z.to_nat L) (i * (2 ^ (8 * L) / N)).
Proof.
  intros HL HN Hi. rewrite pow256 by lia.
  destruct (Z.to_nat L) as [|k] eqn:Ek; [lia|].
  unfold has_digits. replace (Z.of_nat (S k)) with L by lia.
  replace (Z.of_nat k) with (L - 1) by lia.
  assert (Hp : 256 ^ L = 256 * 256 ^ (L - 1)).
  { rewrite <- Z.pow_succ_r by lia. f_equal. lia. }
  assert (Hpos : 0 < 256 ^ (L - 1)) by (apply Z.pow_pos_nonneg; lia).
  set (p := 256 ^ (L - 1)) in *. rewrite Hp.
  set (span := 256 * p / N).
  assert (Hlo : p ≤ span).
  { unfold span. apply Z.div_le_lower_bound; nia. }
  assert (Hhi : N * span ≤ 256 * p).
  { unfold span. apply Z.mul_div_le. lia. }
  nia.
Qed.

Lemma gen_boundary (N L : Z) (gs : affinityGroups) (i : nat) (g : affinityGroup) :
  1 ≤ L → 8 * L < 2 ^ 63 → 1 ≤ N ≤ 256 →
  genAffinityGroups N L = Ret gs →
  gs !! i = Some g →
  Z.of_nat (length (id g)) = L ∧
  be_value (id g) = Z.of_nat i * (2 ^ (8 * L) / N).
Proof.
  intros HL HL8 HN Hgen Hi.
  assert (Hlen := gen_length N L gs ltac:(lia) ltac:(lia) HL8 Hgen).
  apply lookup_lt_Some in Hi as Hlt.
  destruct i as [|i].
  - rewrite (gen_lookup_0 N L gs) in Hi by (done || lia). injection Hi as <-.
    simpl. unfold make_bytes. rewrite length_replicate, be_value_replicate_zero. lia.
  - rewrite (gen_lookup_S N L gs i) in Hi by (done || lia). injection Hi as <-.
    simpl id.
    destruct (Bytes_spec (Z.to_nat L) (Z.of_nat (S i) * (2 ^ (8 * L) / N)))
      as [Hl Hv]; [apply boundary_digits; lia|].
    rewrite Hl, Hv. lia.
Qed.

Lemma span_pos (N L : Z) : 1 ≤ L → 1 ≤ N ≤ 256 → 0 < 2 ^ (8 * L) / N.
Proof.
  intros HL HN. apply Z.div_str_pos. split; [lia|].
  rewrite pow256 by lia.
  assert (256 ^ 1 ≤ 256 ^ L) by (apply Z.pow_le_mono_r; lia). lia.
Qed.

(** ** The search [get] *)

Lemma length_pos_nonempty {A} (l : list A) : (0 < length l)%nat → l ≠ [].
Proof. destruct l; simpl; [lia|done]. Qed.

Lemma get_loop_S (fuel l : nat) (arr : affinityGroups) (v : list byte) :
  get_loop (S fuel) l arr v =
    let i := (length arr / 2)%nat in
    match arr !! i with
    | None => Panic
    | Some gi =>
        if negb (Nat.eqb i 0) && negb (Nat.eqb i l) then
          if Compare v (id gi) <? 0 then get_loop fuel l (take i arr) v
          else if 0 <? Compare v (id gi) then get_loop fuel l (drop i arr) v
          else Ret gi
        else Ret gi
    end.
Proof. reflexivity. Qed.

(** The halving loop always returns a group of the slice it is given. *)
Lemma get_loop_total (fuel : nat) : ∀ (l : nat) (arr : affinityGroups) (v : list byte),
  arr ≠ [] → (length arr ≤ fuel)%nat →
  ∃ g, get_loop fuel l arr v = Ret g ∧ g ∈ arr.
Proof.
  induction fuel as [|fuel IH]; intros l arr v Hne Hfuel.
  - destruct arr; [done|simpl in Hfuel; lia].
  - assert (Hlen : (0 < length arr)%nat) by (destruct arr; [done|simpl; lia]).
    rewrite get_loop_S. cbv zeta.
    assert (Hi : (length arr / 2 < length arr)%nat) by (apply Nat.div_lt; lia).
    destruct (lookup_lt_is_Some_2 arr _ Hi) as [gi Hgi]. rewrite Hgi.
    assert (Hin : gi ∈ arr) by (eapply list_elem_of_lookup_2; eauto).
    destruct (negb (length arr / 2 =? 0)%nat && negb (length arr / 2 =? l)%nat) eqn:Hc;
      [|by eauto].
    apply andb_true_iff in Hc as [Hc0 _].
    apply negb_true_iff, Nat.eqb_neq in Hc0.
    destruct (Compare v (id gi) <? 0).
    + destruct (IH l (take (length arr / 2) arr) v) as (g & Hg & Hgin).
      * apply length_pos_nonempty. rewrite length_take. lia.
      * rewrite length_take. lia.
      * exists g. split; [done|]. apply elem_of_take in Hgin as (j & Hj & _).
        eapply list_elem_of_lookup_2; eauto.
    + destruct (0 <? Compare v (id gi)); [|by eauto].
      destruct (IH l (drop (length arr / 2) arr) v) as (g & Hg & Hgin).
      * apply length_pos_nonempty. rewrite length_drop. lia.
      * rewrite length_drop. lia.
      * exists g. split; [done|]. apply list_elem_of_lookup in Hgin as (j & Hj).
        rewrite lookup_drop in Hj. eapply list_elem_of_lookup_2; eauto.
Qed.

Lemma get_total (ct : affinityGroups) (v : list byte) :
  ct ≠ [] → ∃ g, get ct v = Ret g ∧ g ∈ ct.
Proof.
  intros Hne. apply get_loop_total; [done|lia].
Qed.

(** On boundaries of the hash length that increase strictly and start at
    or below [v], the halving loop finds the greatest boundary not above
    [v]. *)
Lemma get_loop_greatest (fuel : nat) : ∀ (l : nat) (arr : affinityGroups) (v : list byte),
  (length arr ≤ fuel)%nat → (length arr ≤ l)%nat →
  (∀ g, g ∈ arr → length (id g) = length v) →
  increasing arr →
  (∃ g0, arr !! 0%nat = Some g0 ∧ boundary g0 ≤ be_value v) →
  ∃ g, get_loop fuel l arr v = Ret g ∧ locates arr v g.
Proof.
  induction fuel as [|fuel IH]; intros l arr v Hfuel Hl Hwidth Hinc (g0 & Hg0 & Hg0v).
  - apply lookup_lt_Some in Hg0. lia.
  - assert (Hlen : (0 < length arr)%nat) by (apply lookup_lt_Some in Hg0; lia).
    rewrite get_loop_S. cbv zeta. set (i := (length arr / 2)%nat).
    assert (Hi : (i < length arr)%nat) by (apply Nat.div_lt; lia).
    assert (Hsome : is_Some (arr !! i)) by (by apply lookup_lt_is_Some_2).
    destruct Hsome as [gi Hgi]. rewrite Hgi.
    assert (Hin : gi ∈ arr) by (eapply list_elem_of_lookup_2; eauto).
    destruct (Compare_be_value v (id gi)) as [Hlt Hgt];
      [symmetry; by apply Hwidth|]. fold (boundary gi) in Hlt, Hgt.
    destruct (Nat.eqb_spec i 0) as [Hi0|Hi0]; simpl.
    { (* a single group is left *)
      exists gi. split; [done|]. rewrite Hi0 in Hgi.
      assert (gi = g0) by congruence. subst gi.
      split; [done|]. split; [done|]. intros g' Hg' _.
      apply list_elem_of_lookup in Hg' as (j & Hj).
      assert (length arr = 1)%nat.
      { destruct (decide (length arr = 1)%nat); [done|].
        assert (2 ≤ length arr)%nat by lia.
        assert (1 ≤ length arr / 2)%nat by (apply Nat.div_le_lower_bound; lia).
        unfold i in Hi0. lia. }
      apply lookup_lt_Some in Hj as Hjl. assert (j = 0)%nat by lia. subst j.
      assert (g' = g0) by congruence. subst g'. lia. }
    destruct (Nat.eqb_spec i l) as [Hil|_]; [lia|]. simpl.
    destruct (Z.ltb_spec (Compare v (id gi)) 0) as [Hs|Hs].
    + (* below the midpoint: keep arr[:i] *)
      destruct (IH l (take i arr) v) as (g & Hg & Hgin & Hgv & Hmax).
      * rewrite length_take. lia.
      * rewrite length_take. lia.
      * intros g Hgt'. apply Hwidth. apply elem_of_take in Hgt' as (j & Hj & _).
        eapply list_elem_of_lookup_2; eauto.
      * intros j k gj gk Hj Hk Hjk.
        apply lookup_take_Some in Hj as [Hj _]. apply lookup_take_Some in Hk as [Hk _].
        eapply Hinc; eauto.
      * exists g0. split; [|done]. rewrite lookup_take_lt by lia. done.
      * exists g. split; [done|]. split; [|split; [done|]].
        { apply elem_of_take in Hgin as (j & Hj & _). eapply list_elem_of_lookup_2; eauto. }
        intros g' Hg' Hg'v. apply list_elem_of_lookup in Hg' as (j & Hj).
        destruct (decide (j < i)%nat) as [Hji|Hji].
        { apply Hmax; [|done]. apply elem_of_take. eauto. }
        assert (boundary gi ≤ boundary g').
        { destruct (decide (j = i)) as [->|Hne]; [assert (g' = gi) by congruence; subst; lia|].
          assert (boundary gi < boundary g'); [|lia].
          eapply (Hinc i j); eauto. lia. }
        apply Hlt in Hs. lia.
    + destruct (Z.ltb_spec 0 (Compare v (id gi))) as [Hs'|Hs'].
      * (* above the midpoint: keep arr[i:] *)
        destruct (IH l (drop i arr) v) as (g & Hg & Hgin & Hgv & Hmax).
        -- rewrite length_drop. lia.
        -- rewrite length_drop. lia.
        -- intros g Hgd. apply Hwidth. apply list_elem_of_lookup in Hgd as (j & Hj).
           rewrite lookup_drop in Hj. eapply list_elem_of_lookup_2; eauto.
        -- intros j k gj gk Hj Hk Hjk. rewrite lookup_drop in Hj, Hk.
           eapply Hinc; eauto. lia.
        -- exists gi. rewrite lookup_drop, Nat.add_0_r. split; [done|].
           apply Hgt in Hs'. lia.
        -- exists g. split; [done|]. split; [|split; [done|]].
           { apply list_elem_of_lookup in Hgin as (j & Hj).
             rewrite lookup_drop in Hj. eapply list_elem_of_lookup_2; eauto. }
           intros g' Hg' Hg'v. apply list_elem_of_lookup in Hg' as (j & Hj).
           destruct (decide (i ≤ j)%nat) as [Hij|Hij].
           { apply Hmax; [|done]. apply list_elem_of_lookup. exists (j - i)%nat.
             rewrite lookup_drop. replace (i + (j - i))%nat with j by lia. done. }
           assert (boundary g' < boundary gi) by (eapply (Hinc j i); eauto; lia).
           apply list_elem_of_lookup in Hgin as (k & Hk). rewrite lookup_drop in Hk.
           destruct (decide (k = 0)%nat) as [->|Hk0].
           { rewrite Nat.add_0_r in Hk. assert (g = gi) by congruence. subst. lia. }
           assert (boundary gi < boundary g) by (eapply (Hinc i (i + k)%nat); eauto; lia).
           lia.
      * (* the midpoint's boundary is the hash itself *)
        assert (Hv : be_value v = boundary gi).
        { destruct (Z.lt_trichotomy (be_value v) (boundary gi)) as [H|[H|H]]; [|done|].
          - apply Hlt in H. lia.
          - apply Hgt in H. lia. }
        exists gi. split; [done|]. split; [done|]. split; [lia|].
        intros g' _ Hg'v. lia.
Qed.

Lemma locates_unique (arr : affinityGroups) (v : list byte) (g g' : affinityGroup) :
  increasing arr → locates arr v g → locates arr v g' → g = g'.
Proof.
  intros Hinc (Hin & Hv & Hmax) (Hin' & Hv' & Hmax').
  assert (Heq : boundary g = boundary g').
  { specialize (Hmax g' Hin' Hv'). specialize (Hmax' g Hin Hv). lia. }
  apply list_elem_of_lookup in Hin as (j & Hj).
  apply list_elem_of_lookup in Hin' as (k & Hk).
  destruct (Nat.lt_trichotomy j k) as [H|[H|H]].
  - pose proof (Hinc j k g g' Hj Hk H). lia.
  - subst k. congruence.
  - pose proof (Hinc k j g' g Hk Hj H). lia.
Qed.

Lemma gen_increasing (N L : Z) (gs : affinityGroups) :
  1 ≤ L → 8 * L < 2 ^ 63 → 1 ≤ N ≤ 256 →
  genAffinityGroups N L = Ret gs → increasing gs.
Proof.
  intros HL HL8 HN Hgen j k gj gk Hj Hk Hjk. unfold boundary.
  destruct (gen_boundary N L gs j gj HL HL8 HN Hgen Hj) as [_ ->].
  destruct (gen_boundary N L gs k gk HL HL8 HN Hgen Hk) as [_ ->].
  pose proof (span_pos N L HL HN). nia.
Qed.

(** With at most 256 groups the boundaries are well formed, and [get]
    returns the one group with the greatest boundary not above the hash. *)
Lemma get_locates_small (N L : Z) (v : list byte) :
  1 ≤ L → 8 * L < 2 ^ 63 → 1 ≤ N ≤ 256 → Z.of_nat (length v) = L →
  ∃ gs g, genAffinityGroups N L = Ret gs ∧ get gs v = Ret g ∧
    locates gs v g ∧ ∀ g', locates gs v g' → g' = g.
Proof.
  intros HL HL8 HN Hv.
  assert (Hgen := genAffinityGroups_unfold N L ltac:(lia) ltac:(lia) HL8).
  match type of Hgen with _ = Ret ?l => set (gs := l) in * end.
  assert (Hinc := gen_increasing N L gs HL HL8 HN Hgen).
  destruct (get_loop_greatest (S (length gs)) (length gs) gs v) as (g & Hg & Hloc);
    [lia|reflexivity| | exact Hinc | | ].
  - intros g Hin. apply list_elem_of_lookup in Hin as (j & Hj).
    destruct (gen_boundary N L gs j g HL HL8 HN Hgen Hj) as [Hlen _]. lia.
  - eexists. split; [reflexivity|]. unfold boundary. simpl. unfold make_bytes.
    rewrite be_value_replicate_zero. apply be_value_range.
  - exists gs, g. split; [exact Hgen|]. split; [exact Hg|]. split; [exact Hloc|].
    intros g' Hg'. eapply locates_unique; eauto.
Qed.

(** Within 256 groups: for a single group, or for a hash length of at least
    one byte and at most 256 groups, [genAffinityGroups] returns exactly
    [N] groups whose boundaries increase strictly from one group to the
    next, group 0 has the all-zero boundary, and every boundary is [L]
    bytes long. *)
Theorem boundary_ordering_small (N L : Z) :
  0 ≤ L → 8 * L < 2 ^ 63 →
  N = 1 ∨ (1 ≤ L ∧ 1 ≤ N ≤ 256) →
  boundary_ordering N L.
Proof.
  intros HL HL8 Hcase.
  assert (HN : 1 ≤ N) by lia.
  assert (Hgen := genAffinityGroups_unfold N L HN HL HL8).
  eexists. split; [exact Hgen|].
  assert (Hlen := gen_length N L _ HN HL HL8 Hgen).
  split; [exact Hlen|]. split; [|split].
  - intros i gi gj Hi Hj. destruct Hcase as [->|[HL1 HN256]].
    + apply lookup_lt_Some in Hj. lia.
    + destruct (gen_boundary N L _ i gi HL1 HL8 HN256 Hgen Hi) as [Hli Hvi].
      destruct (gen_boundary N L _ (S i) gj HL1 HL8 HN256 Hgen Hj) as [Hlj Hvj].
      apply Compare_be_value; [lia|]. rewrite Hvi, Hvj.
      pose proof (span_pos N L HL1 HN256). nia.
  - eexists. split; [reflexivity|]. simpl. unfold make_bytes.
    apply Forall_replicate. reflexivity.
  - intros g Hin. apply list_elem_of_lookup in Hin as (j & Hj).
    destruct Hcase as [->|[HL1 HN256]].
    + apply lookup_lt_Some in Hj as Hlt. assert (j = 0)%nat by lia. subst j.
      simpl in Hj. injection Hj as <-. simpl. unfold make_bytes.
      rewrite length_replicate. lia.
    + by destruct (gen_boundary N L _ j g HL1 HL8 HN256 Hgen Hj) as [-> _].
Qed.

(** ** Membership calls on one group *)

(** (C5) Without [force], [addNode] fails with [errNodeExists] exactly
    when the node's host is already a member; otherwise, and always with
    [force], it succeeds, the group then holds the given node for that
    host, and the stored record is the given one with last-seen set to
    the time of the call.  A forced add that follows stores its own node
    with the time of that later call. *)
Theorem addNode_spec (σ : store) (group : affinityGroup) (node : ptr)
    (n : Node) (now : Z) :
  σ !! node = Some n →
  (is_Some (m group !! Host n) ↔
     addNode node false now σ group = Ret (σ, group, Some errNodeExists)) ∧
  (∀ force, force = true ∨ m group !! Host n = None →
     ∃ σ' group',
       addNode node force now σ group = Ret (σ', group', None) ∧
       m group' !! Host n = Some node ∧
       record_of σ' group' (Host n) =
         Some {| Host := Host n; Heartbeats := Heartbeats n;
                 LastSeen := now; Coordinates := Coordinates n |} ∧
       ∀ node2 n2 now2, σ' !! node2 = Some n2 → Host n2 = Host n →
         ∃ σ'' group'',
           addNode node2 true now2 σ' group' = Ret (σ'', group'', None) ∧
           m group'' !! Host n = Some node2 ∧
           record_of σ'' group'' (Host n) =
             Some {| Host := Host n2; Heartbeats := Heartbeats n2;
                     LastSeen := now2; Coordinates := Coordinates n2 |}).
Proof.
  intros Hn. split.
  - unfold addNode. rewrite Hn. simpl. rewrite andb_true_r. split.
    + intros Hm. by rewrite bool_decide_eq_true_2.
    + destruct (bool_decide (is_Some (m group !! Host n))) eqn:Hd.
      * intros _. by apply bool_decide_eq_true_1 in Hd.
      * intros [=].
  - intros force Hcase.
    assert (Hc : bool_decide (is_Some (m group !! Host n)) && negb force = false).
    { destruct Hcase as [->|Hnone]; [by rewrite andb_false_r|].
      rewrite bool_decide_eq_false_2; [done|]. rewrite Hnone. by intros [? ?]. }
    unfold addNode at 1. rewrite Hn, Hc.
    eexists _, _. split; [reflexivity|]. simpl.
    split; [by rewrite lookup_insert_eq|].
    split.
    { unfold record_of. simpl. rewrite lookup_insert_eq. simpl.
      by rewrite lookup_insert_eq. }
    intros node2 n2 now2 Hn2 Hhost. unfold addNode. rewrite Hn2. simpl.
    rewrite andb_false_r. eexists _, _. split; [reflexivity|]. simpl.
    rewrite Hhost. split; [by rewrite lookup_insert_eq|].
    unfold record_of. simpl. rewrite lookup_insert_eq. simpl.
    by rewrite lookup_insert_eq.
Qed.

(** (C6, as amended) In every group state, [pingNode] fails with a
    not-found error exactly when the host is not a member.  On a member it
    succeeds, sets last-seen to the time of the call, stores a clone of
    the given coordinate, and adds one to the heartbeat counter within the
    counter's range: the new counter is the old one plus one, except at
    the top of the range, where it wraps to 0.  The [rtt] argument does
    not matter.  A further ping at a later or equal time does not lower
    last-seen, and raises the counter again as long as it stays below the
    top of its range. *)
Theorem pingNode_wrapping_spec (σ : store) (group : affinityGroup)
    (hostname : string) (coord : Coordinate) (rtt now : Z) :
  (m group !! hostname = None ↔
     pingNode hostname coord rtt now σ group =
       Ret (σ, group, Some (errNodeNotFound hostname))) ∧
  (∀ p n, m group !! hostname = Some p → σ !! p = Some n →
     ∃ σ' group',
       pingNode hostname coord rtt now σ group = Ret (σ', group', None) ∧
       (∀ rtt', pingNode hostname coord rtt' now σ group = Ret (σ', group', None)) ∧
       record_of σ' group' hostname =
         Some {| Host := Host n;
                 Heartbeats := (Heartbeats n + 1) mod hbModulus;
                 LastSeen := now; Coordinates := Clone coord |} ∧
       (0 ≤ Heartbeats n → Heartbeats n + 1 < hbModulus →
          (Heartbeats n + 1) mod hbModulus = Heartbeats n + 1) ∧
       (0 < hbModulus → Heartbeats n + 1 = hbModulus →
          (Heartbeats n + 1) mod hbModulus = 0) ∧
       ∀ coord2 rtt2 now2, now ≤ now2 →
         ∃ σ'' group'' r2,
           pingNode hostname coord2 rtt2 now2 σ' group' =
             Ret (σ'', group'', None) ∧
           record_of σ'' group'' hostname = Some r2 ∧
           Heartbeats r2 =
             ((Heartbeats n + 1) mod hbModulus + 1) mod hbModulus ∧
           now ≤ LastSeen r2 ∧ Coordinates r2 = Clone coord2 ∧
           (0 ≤ Heartbeats n → Heartbeats n + 2 < hbModulus →
              Heartbeats n < Heartbeats n + 1 < Heartbeats r2)).
Proof.
  split.
  - unfold pingNode. destruct (m group !! hostname) as [q|] eqn:Hq.
    + split; [done|]. destruct (σ !! q); discriminate.
    + done.
  - intros p n Hm Hp. unfold pingNode at 1 2. rewrite Hm, Hp.
    eexists _, _. split; [reflexivity|]. split; [reflexivity|].
    split.
    { unfold record_of. simpl. rewrite lookup_insert_eq. simpl.
      by rewrite lookup_insert_eq. }
    split; [intros Hlo Hhi; apply Z.mod_small; lia|].
    split; [intros Hpos ->; apply Z_mod_same_full|].
    intros coord2 rtt2 now2 Hnow. unfold pingNode. simpl.
    rewrite !lookup_insert_eq. simpl. eexists _, _, _.
    split; [reflexivity|]. split.
    { unfold record_of. simpl. rewrite lookup_insert_eq. simpl.
      rewrite lookup_insert_eq. reflexivity. }
    simpl. split; [done|]. split; [done|]. split; [done|].
    intros Hlo Hhi. rewrite (Z.mod_small (Heartbeats n + 1)) by lia.
    rewrite Z.mod_small by lia. lia.
Qed.

(** (C10) A membership call that returns an error leaves the store of node
    records and the group unchanged; the error is [errNodeExists] for an
    unforced [addNode] of a member host, and a not-found error for
    [removeNode] and [pingNode] of a host that is not a member. *)
Theorem error_leaves_state (c : call) (σ σ' : store)
    (group group' : affinityGroup) (e : error) :
  exec c σ group = Ret (σ', group', Some e) →
  σ' = σ ∧ group' = group ∧
  match c with
  | AddNode node force _ =>
      force = false ∧ e = errNodeExists ∧
      ∃ n, σ !! node = Some n ∧ is_Some (m group !! Host n)
  | RemoveNode hostname =>
      e = errNodeNotFound hostname ∧ m group !! hostname = None
  | PingNode hostname _ _ _ =>
      e = errNodeNotFound hostname ∧ m group !! hostname = None
  end.
Proof.
  destruct c as [node force now|hostname|hostname coord rtt now]; simpl.
  - unfold addNode. destruct (σ !! node) as [n|] eqn:Hn; [|done].
    destruct (bool_decide (is_Some (m group !! Host n)) && negb force) eqn:Hc;
      [|done].
    intros [= <- <- <-]. apply andb_true_iff in Hc as [Hmem Hf].
    apply bool_decide_eq_true_1 in Hmem. apply negb_true_iff in Hf.
    repeat split; [done|]. by exists n.
  - unfold removeNode. destruct (m group !! hostname) eqn:Hm; [done|].
    by intros [= <- <- <-].
  - unfold pingNode. destruct (m group !! hostname) as [q|] eqn:Hm.
    + destruct (σ !! q); done.
    + by intros [= <- <- <-].
Qed.

(** ** Heartbeat counters along sequences of calls *)

Lemma exec_heartbeat (c : call) (σ σ' : store) (group group' : affinityGroup)
    (e : option error) (hostname : string) (hb hb' : Z) :
  exec c σ group = Ret (σ', group', e) →
  keeps_counters c σ group →
  heartbeat_of σ group hostname = Some hb →
  heartbeat_of σ' group' hostname = Some hb' →
  hb ≤ hb'.
Proof.
  unfold heartbeat_of, record_of.
  destruct c as [node force now|h|h coord rtt now]; simpl.
  - unfold addNode. destruct (σ !! node) as [n|] eqn:Hn; [|done].
    destruct (bool_decide (is_Some (m group !! Host n)) && negb force) eqn:Hc.
    { intros [= <- <- <-] _ H1 H2. rewrite H1 in H2. injection H2 as <-. lia. }
    intros [= <- <- <-] Hkeep. simpl.
    destruct (m group !! hostname) as [p|] eqn:Hp; [|done]. simpl.
    destruct (σ !! p) as [r|] eqn:Hr; [|done]. simpl. intros [= <-].
    destruct (decide (Host n = hostname)) as [<-|Hne].
    + rewrite lookup_insert_eq. simpl. rewrite lookup_insert_eq. simpl.
      intros [= <-].
      assert (Hf : force = true).
      { destruct force; [done|]. simpl in Hc. rewrite andb_true_r in Hc.
        apply bool_decide_eq_false_1 in Hc. destruct Hc. by rewrite Hp. }
      assert (p = node) by (eapply Hkeep; eauto). subst p.
      assert (r = n) by congruence. subst r. lia.
    + rewrite lookup_insert_ne by done. rewrite Hp. simpl.
      destruct (decide (node = p)) as [->|Hnp].
      * rewrite lookup_insert_eq. simpl. intros [= <-].
        assert (r = n) by congruence. subst r. lia.
      * rewrite lookup_insert_ne by done. rewrite Hr. simpl.
        intros [= <-]. lia.
  - unfold removeNode. destruct (m group !! h) as [q|] eqn:Hq.
    + intros [= <- <- <-] _. simpl.
      destruct (decide (h = hostname)) as [->|Hne].
      * rewrite lookup_delete_eq. done.
      * rewrite lookup_delete_ne by done. intros H1 H2.
        rewrite H1 in H2. injection H2 as <-. lia.
    + intros [= <- <- <-] _ H1 H2. rewrite H1 in H2. injection H2 as <-. lia.
  - unfold pingNode. destruct (m group !! h) as [q|] eqn:Hq.
    + destruct (σ !! q) as [nq|] eqn:Hnq; [|done].
      intros [= <- <- <-] Hkeep. simpl.
      destruct (Hkeep q nq eq_refl Hnq) as [Hlo Hhi].
      assert (Hmap : <[h:=q]> (m group) !! hostname = m group !! hostname).
      { destruct (decide (h = hostname)) as [->|Hne].
        - by rewrite lookup_insert_eq.
        - by rewrite lookup_insert_ne. }
      rewrite Hmap.
      destruct (m group !! hostname) as [p|] eqn:Hp; [|done]. simpl.
      destruct (σ !! p) as [r|] eqn:Hr; [|done]. simpl. intros [= <-].
      destruct (decide (q = p)) as [->|Hqp].
      * rewrite lookup_insert_eq. simpl. intros [= <-].
        assert (r = nq) by congruence. subst r.
        rewrite Z.mod_small by lia. lia.
      * rewrite lookup_insert_ne by done. rewrite Hr. simpl.
        intros [= <-]. lia.
    + intros [= <- <- <-] _ H1 H2. rewrite H1 in H2. injection H2 as <-. lia.
Qed.

Lemma trace_head (cs : list call) (σ : store) (group : affinityGroup) :
  trace cs σ group !! 0%nat = Some (σ, group).
Proof. by destruct cs. Qed.

(** (C7, as amended) Along every sequence of [addNode], [pingNode] and
    [removeNode] calls in which no forced [addNode] replaces a member's
    record by another record and no counter is pinged at the top of its
    range, the heartbeat counter of a host never decreases from one state
    to the next while the host stays a member. *)
Theorem heartbeat_monotone_unforced (cs : list call) :
  ∀ (σ : store) (group : affinityGroup) (hostname : string),
    all_keep_counters cs σ group →
    heartbeat_monotone hostname (trace cs σ group).
Proof.
  induction cs as [|c cs IH]; intros σ group hostname Hkeep i s s' hb hb' Hi HSi.
  - simpl in HSi. done.
  - simpl in Hkeep. destruct Hkeep as [Hc Hrest].
    simpl in Hi, HSi.
    destruct (exec c σ group) as [[[σ1 g1] e]| |] eqn:Hexec;
      [|by destruct i..].
    destruct i as [|i].
    + simpl in Hi. injection Hi as <-.
      change ((trace cs σ1 g1) !! 0%nat = Some s') in HSi.
      rewrite trace_head in HSi. injection HSi as <-. simpl.
      eapply exec_heartbeat; eauto.
    + change ((trace cs σ1 g1) !! i = Some s) in Hi.
      change ((trace cs σ1 g1) !! S i = Some s') in HSi.
      eapply IH; eauto.
Qed.

(** ** Dereferencing and [Nodes] *)

Lemma run_bind_Ret {A B} (f : A → run B) (a : A) : (Ret a ≫= f) = f a.
Proof. reflexivity. Qed.

Lemma deref_all_Ret (σ : store) (ps : list ptr) (ns : list Node) :
  deref_all σ ps = Ret ns ↔ Forall2 (λ p n, σ !! p = Some n) ps ns.
Proof.
  revert ns. induction ps as [|p ps IH]; intros ns; simpl.
  - split.
    + intros [= <-]. constructor.
    + intros H. by inversion H.
  - destruct (σ !! p) as [n|] eqn:Hp.
    + destruct (deref_all σ ps) as [ns'| |] eqn:Hd; simpl; split.
      * intros [= <-]. constructor; [done|]. by apply IH.
      * intros H. inversion H as [|? n0 ? ns0 Hn Hrest]; subst.
        apply IH in Hrest. congruence.
      * done.
      * intros H. inversion H as [|? n0 ? ns0 Hn Hrest]; subst.
        apply IH in Hrest. done.
      * done.
      * intros H. inversion H as [|? n0 ? ns0 Hn Hrest]; subst.
        apply IH in Hrest. done.
    + split; [done|]. intros H. inversion H; subst. congruence.
Qed.

Lemma deref_all_valid (σ : store) (ps : list ptr) :
  (∀ p, p ∈ ps → is_Some (σ !! p)) →
  ∃ ns, deref_all σ ps = Ret ns ∧ length ns = length ps.
Proof.
  induction ps as [|p ps IH]; intros Hv; simpl.
  - by exists [].
  - destruct (Hv p) as [n Hn]; [by left|]. rewrite Hn.
    destruct IH as (ns & -> & Hlen); [intros q Hq; apply Hv; by right|].
    exists (n :: ns). simpl. split; [done|]. by rewrite Hlen.
Qed.

Lemma Nodes_valid (σ : store) (group : affinityGroup) :
  valid_ptrs σ group →
  ∃ ns, Nodes σ group = Ret ns ∧ length ns = size (m group).
Proof.
  intros Hv. unfold Nodes.
  destruct (deref_all_valid σ (map_to_list (m group)).*2) as (ns & Hns & Hlen).
  - intros p Hp. apply list_elem_of_fmap in Hp as ([h q] & -> & Hin).
    apply elem_of_map_to_list in Hin. by eapply Hv.
  - exists ns. split; [done|].
    by rewrite Hlen, length_fmap, length_map_to_list.
Qed.

Lemma Nodes_empty (σ : store) (group : affinityGroup) :
  valid_ptrs σ group →
  ∃ ns, Nodes σ group = Ret ns ∧ Nat.eqb (length ns) 0 = negb (has_nodes group).
Proof.
  intros Hv. destruct (Nodes_valid σ group Hv) as (ns & Hns & Hlen).
  exists ns. split; [done|]. rewrite Hlen. unfold has_nodes.
  destruct (decide (m group = ∅)) as [He|He].
  - rewrite He, map_size_empty. simpl. rewrite bool_decide_eq_false_2; [done|].
    by intros H.
  - rewrite bool_decide_eq_true_2 by done. simpl. apply Nat.eqb_neq.
    intros Hs. by apply map_size_empty_iff in Hs.
Qed.

(** ** Walking back to a group with members *)

Lemma walk_back_step (ct : affinityGroups) (gi k : nat) (g' : affinityGroup) :
  (k < length ct)%nat → (gi < length ct)%nat →
  ct !! (if decide (k = 0)%nat then length ct - 1 else k - 1)%nat = Some g' →
  walk_back ct gi k =
    if decide ((if decide (k = 0)%nat then length ct - 1 else k - 1)%nat = gi)
    then [] else g' :: walk_back ct gi (if decide (k = 0)%nat then length ct - 1 else k - 1)%nat.
Proof.
  intros Hk Hgi Hg'. unfold walk_back. destruct (decide (k = 0)%nat) as [->|Hk0].
  - rewrite decide_True by lia. simpl.
    destruct (decide (length ct - 1 = gi)%nat) as [Hj|Hj].
    + rewrite drop_ge by lia. done.
    + rewrite decide_False by lia.
      assert (Hct : ct = take (length ct - 1) ct ++ [g']).
      { rewrite <- (take_S_r _ _ _ Hg'). rewrite take_ge; [done|lia]. }
      rewrite Hct at 1. rewrite drop_app_le by (rewrite length_take; lia).
      by rewrite reverse_snoc.
  - destruct k as [|k0]; [done|]. replace (S k0 - 1)%nat with k0 in * by lia.
    rewrite (take_S_r _ _ _ Hg').
    destruct (decide (S k0 ≤ gi)%nat) as [Hle|Hgt].
    + rewrite decide_False by lia. rewrite decide_True by lia.
      by rewrite reverse_snoc.
    + destruct (decide (k0 = gi)) as [->|Hne].
      * rewrite <- (take_S_r _ _ _ Hg'). rewrite drop_ge; [done|].
        rewrite length_take. lia.
      * rewrite decide_False by lia.
        rewrite drop_app_le by (rewrite length_take; lia).
        by rewrite reverse_snoc.
Qed.

Lemma walk_back_length (ct : affinityGroups) (gi k : nat) :
  (k ≤ length ct)%nat → (gi < length ct)%nat →
  (length (walk_back ct gi k) < length ct)%nat.
Proof.
  intros Hk Hgi. unfold walk_back. destruct (decide (k ≤ gi)%nat).
  - rewrite length_app, !length_reverse, length_take, length_drop. lia.
  - rewrite length_reverse, length_drop, length_take. lia.
Qed.

Lemma nextClosestGroup_loop_walk (σ : store) (ct : affinityGroups) (gi : nat) :
  well_indexed ct → (gi < length ct)%nat →
  (∀ g', g' ∈ ct → valid_ptrs σ g') →
  ∀ (fuel k : nat) (group : affinityGroup) (nodes : list Node),
    (length (walk_back ct gi k) < fuel)%nat → (k < length ct)%nat →
    index group = Z.of_nat k →
    Nat.eqb (length nodes) 0 = negb (has_nodes group) →
    nextClosestGroup_loop fuel σ ct (Z.of_nat gi) group nodes =
      Ret (if has_nodes group then Some group
           else List.find has_nodes (walk_back ct gi k)).
Proof.
  intros Hidx Hgi Hvalid fuel.
  induction fuel as [|fuel IH]; intros k group nodes Hfuel Hk Hgroup Hnodes; [lia|].
  simpl nextClosestGroup_loop. rewrite Hnodes.
  destruct (has_nodes group); [done|]. simpl negb. cbv iota.
  set (j := (if decide (k = 0)%nat then length ct - 1 else k - 1)%nat).
  assert (Hj : (j < length ct)%nat) by (unfold j; destruct (decide (k = 0)%nat); lia).
  assert (Hat : at_index ct (if index group =? 0 then Z.of_nat (length ct) - 1
                             else index group - 1) = ct !! j).
  { unfold at_index, j. rewrite Hgroup.
    destruct (decide (k = 0)%nat) as [->|Hk0].
    - simpl. destruct (Z.ltb_spec (Z.of_nat (length ct) - 1) 0); [lia|].
      f_equal. lia.
    - destruct (Z.eqb_spec (Z.of_nat k) 0); [lia|].
      destruct (Z.ltb_spec (Z.of_nat k - 1) 0); [lia|]. f_equal. lia. }
  rewrite Hat.
  assert (Hsome : is_Some (ct !! j)) by (by apply lookup_lt_is_Some_2).
  destruct Hsome as [g' Hg']. rewrite Hg'.
  assert (Hin : g' ∈ ct) by (eapply list_elem_of_lookup_2; eauto).
  destruct (Nodes_empty σ g' (Hvalid g' Hin)) as (nodes' & Hn' & Hlen').
  rewrite Hn'. simpl.
  rewrite (Hidx j g' Hg').
  pose proof (walk_back_step ct gi k g' Hk Hgi Hg') as Hstep. fold j in Hstep.
  destruct (decide (j = gi)) as [Hjg|Hjg].
  - rewrite Hstep. subst j. rewrite Hjg, Z.eqb_refl. done.
  - destruct (Z.eqb_spec (Z.of_nat j) (Z.of_nat gi)) as [Heq|_]; [lia|]. simpl.
    rewrite Hstep in Hfuel |- *. simpl in Hfuel.
    rewrite (IH j g' nodes'); [|lia|done|by apply Hidx|done].
    simpl. by destruct (has_nodes g').
Qed.

(** (C9) On a group list whose groups carry their positions as [index],
    started at a group [g] with a position of the list,
    [nextClosestGroup] returns [g] when [g] has a member; otherwise it
    returns the first group with a member among the groups before [g] in
    backward order followed by the groups after [g] in backward order,
    and none when there is no such group, in particular when every group
    is empty. *)
Theorem nextClosestGroup_spec (σ : store) (ct : affinityGroups)
    (g : affinityGroup) (gi : nat) :
  well_indexed ct → index g = Z.of_nat gi → (gi < length ct)%nat →
  valid_ptrs σ g → (∀ g', g' ∈ ct → valid_ptrs σ g') →
  nextClosestGroup σ ct g =
    Ret (if has_nodes g then Some g
         else List.find has_nodes
                (reverse (take gi ct) ++ reverse (drop (S gi) ct))) ∧
  (has_nodes g = false → (∀ g', g' ∈ ct → has_nodes g' = false) →
     nextClosestGroup σ ct g = Ret None).
Proof.
  intros Hidx Hg Hgi Hvg Hvalid.
  assert (Hmain : nextClosestGroup σ ct g =
    Ret (if has_nodes g then Some g
         else List.find has_nodes
                (reverse (take gi ct) ++ reverse (drop (S gi) ct)))).
  { unfold nextClosestGroup.
    destruct (Nodes_empty σ g Hvg) as (nodes & Hn & Hlen).
    rewrite Hn, run_bind_Ret, Hg.
    rewrite (nextClosestGroup_loop_walk σ ct gi Hidx Hgi Hvalid
               (S (length ct)) gi g nodes); [|
      pose proof (walk_back_length ct gi gi ltac:(lia) Hgi); lia | done | done | done].
    unfold walk_back. by rewrite decide_True by lia. }
  split; [exact Hmain|].
  intros Hge Hall. rewrite Hmain, Hge. f_equal.
  destruct (List.find has_nodes _) as [r|] eqn:Hfind; [|done].
  apply List.find_some in Hfind as [Hin Hr].
  apply list_elem_of_In in Hin.
  assert (r ∈ ct).
  { apply elem_of_app in Hin as [Hin|Hin]; rewrite elem_of_reverse in Hin.
    - apply elem_of_take in Hin as (i & Hi & _). eapply list_elem_of_lookup_2; eauto.
    - apply list_elem_of_lookup in Hin as (i & Hi). rewrite lookup_drop in Hi.
      eapply list_elem_of_lookup_2; eauto. }
  rewrite Hall in Hr by done. done.
Qed.

(** ** The tuple directory *)

Lemma hosts_of_insert (d : gmap (list byte) (list (list byte)))
    (key : list byte) (hosts : list (list byte)) :
  hosts_of (<[key := hosts]> d) key = hosts.
Proof. unfold hosts_of. by rewrite lookup_insert_eq. Qed.

Lemma hosts_of_insert_ne (d : gmap (list byte) (list (list byte)))
    (key key' : list byte) (hosts : list (list byte)) :
  key ≠ key' → hosts_of (<[key := hosts]> d) key' = hosts_of d key'.
Proof. intros Hne. unfold hosts_of. by rewrite lookup_insert_ne. Qed.

(** (C3) Set semantics of the tuple directory: a second insert of the same
    (key, host) pair changes nothing and reports no error, and the host
    is in the key's set after the first one; deleting a host that is not
    in the key's set changes nothing; [expireHost] removes the host from
    every key's set, leaves the other hosts, and answers [true] exactly
    when some key held the host. *)
Theorem tuple_set_semantics (d : gmap (list byte) (list (list byte)))
    (key host : list byte) :
  (tuples_Insert key host d).2 = None ∧
  host ∈ hosts_of (tuples_Insert key host d).1 key ∧
  tuples_Insert key host (tuples_Insert key host d).1 =
    ((tuples_Insert key host d).1, None) ∧
  (host ∉ hosts_of d key → tuples_Delete key host d = (d, None)) ∧
  (∀ k, hosts_of (tuples_ExpireHost host d).1 k =
          filter (λ h, h ≠ host) (hosts_of d k)) ∧
  (∀ k, host ∉ hosts_of (tuples_ExpireHost host d).1 k) ∧
  ((tuples_ExpireHost host d).2 = true ↔ ∃ k, host ∈ hosts_of d k).
Proof.
  assert (Hin : host ∈ hosts_of (tuples_Insert key host d).1 key).
  { unfold tuples_Insert. destruct (decide (host ∈ hosts_of d key)) as [H|H].
    - by rewrite bool_decide_eq_true_2.
    - rewrite bool_decide_eq_false_2 by done. simpl.
      rewrite hosts_of_insert. apply elem_of_app. right. by left. }
  assert (Hexp : ∀ k, hosts_of (tuples_ExpireHost host d).1 k =
                      filter (λ h, h ≠ host) (hosts_of d k)).
  { intros k. unfold tuples_ExpireHost, hosts_of. simpl.
    rewrite lookup_fmap. by destruct (d !! k). }
  split; [|split; [exact Hin|split; [|split; [|split; [exact Hexp|split]]]]].
  - unfold tuples_Insert. by destruct (bool_decide _).
  - unfold tuples_Insert at 1. by rewrite bool_decide_eq_true_2.
  - intros Hout. unfold tuples_Delete. by rewrite bool_decide_eq_false_2.
  - intros k. rewrite Hexp, list_elem_of_filter. by intros [Hne _].
  - unfold tuples_ExpireHost. simpl. rewrite negb_true_iff, bool_decide_eq_false.
    rewrite map_not_Forall by (intros; apply _). split.
    + intros (k & hosts & Hk & Hh). exists k. unfold hosts_of. rewrite Hk.
      simpl. by apply dec_stable.
    + intros (k & Hk). unfold hosts_of in Hk.
      destruct (d !! k) as [hosts|] eqn:Hd; simpl in Hk.
      * exists k, hosts. split; [done|]. by intros Hn.
      * by apply elem_of_nil in Hk.
Qed.

(** ** [Lookup] *)

Lemma omap_length_le {A B} (f : A → option B) (l : list A) :
  (length (omap f l) ≤ length l)%nat.
Proof.
  induction l as [|x l IH]; simpl; [lia|].
  change (list_omap A B f l) with (omap f l). destruct (f x); simpl; lia.
Qed.

(** What the loop keeps of one tuple: the node its group lists for it. *)
Lemma Lookup_loop_omap (ct : affinityGroups) (hosts : list (list byte)) :
  ct ≠ [] → ∀ nodes,
  Lookup_loop ct hosts nodes =
    Ret (nodes ++
         omap (λ tuple, match get ct (tuple_ID tuple) with
                        | Ret tg => getNode tg (tuple_String tuple)
                        | _ => None
                        end) hosts).
Proof.
  intros Hne. induction hosts as [|tuple rest IH]; intros nodes; simpl.
  - by rewrite app_nil_r.
  - destruct (get_total ct (tuple_ID tuple) Hne) as (tg & Htg & _).
    rewrite Htg. simpl.
    destruct (getNode tg (tuple_String tuple)) as [node|].
    + rewrite IH. by rewrite <- app_assoc.
    + by rewrite IH.
Qed.

(** (C4) For a key with an entry in the tuple directory, [Lookup] returns
    no error and exactly the nodes that the groups list for the key's
    hosts: a node is returned if and only if it is the member that the
    group of some host of the key (found through the host's hash) lists
    under that host's name.  Hosts without such a member are left out, so
    the list is at most as long as the host list. *)
Theorem Lookup_spec (lrpc : localGroup) (key : list byte)
    (hosts : list (list byte)) :
  groups lrpc ≠ [] →
  tuples_Get key (tuples lrpc) = (hosts, None) →
  ∃ nodes,
    Lookup lrpc key = Ret (nodes, None) ∧
    (∀ node, node ∈ nodes ↔
       ∃ tuple tg, tuple ∈ hosts ∧
         get (groups lrpc) (tuple_ID tuple) = Ret tg ∧
         m tg !! tuple_String tuple = Some node) ∧
    (length nodes ≤ length hosts)%nat.
Proof.
  intros Hne Hget. unfold Lookup. rewrite Hget.
  rewrite (Lookup_loop_omap _ _ Hne). simpl.
  eexists. split; [reflexivity|]. split.
  - intros node. rewrite list_elem_of_omap. split.
    + intros (tuple & Hin & Hf).
      destruct (get (groups lrpc) (tuple_ID tuple)) as [tg| |] eqn:Htg; try done.
      by exists tuple, tg.
    + intros (tuple & tg & Hin & Htg & Hm). exists tuple. split; [done|].
      by rewrite Htg.
  - apply omap_length_le.
Qed.

(** ** [Snapshot] *)

Lemma visit_tuples_collect (kvs : list (list byte * list (list byte))) :
  ∀ acc, visit_tuples collect_tuple kvs acc =
           acc ++ ((λ kv, {| Key := kv.1; Hosts := kv.2 |}) <$> kvs).
Proof.
  induction kvs as [|[key hosts] kvs IH]; intros acc; simpl.
  - by rewrite app_nil_r.
  - rewrite IH. by rewrite <- app_assoc.
Qed.

Lemma elem_of_concat {A} (x : A) (ls : list (list A)) :
  x ∈ concat ls ↔ ∃ l, x ∈ l ∧ l ∈ ls.
Proof.
  induction ls as [|l ls IH]; simpl.
  - split; [by intros H%elem_of_nil|]. by intros (l & _ & H%elem_of_nil).
  - rewrite elem_of_app, IH. split.
    + intros [H|(l' & H1 & H2)]; [exists l; split; [done|by left]|].
      exists l'. split; [done|by right].
    + intros (l' & H1 & H2). apply elem_of_cons in H2 as [->|H2]; [by left|].
      right. by exists l'.
Qed.

Lemma allocated_nil (σ : store) : allocated σ σ [] [].
Proof.
  split; [constructor|]. split; [|done]. intros p Hp. by apply elem_of_nil in Hp.
Qed.

Lemma allocated_app (σ σ1 σ2 : store) (ps1 ps2 : list ptr) (ns1 ns2 : list Node) :
  allocated σ σ1 ps1 ns1 → allocated σ1 σ2 ps2 ns2 →
  allocated σ σ2 (ps1 ++ ps2) (ns1 ++ ns2).
Proof.
  intros (Hf1 & Hn1 & He1) (Hf2 & Hn2 & He2). split; [|split].
  - apply Forall2_app; [|done].
    eapply Forall2_impl; [exact Hf1|]. intros p n Hp. by apply He2.
  - intros p Hp. apply elem_of_app in Hp as [Hp|Hp]; [by apply Hn1|].
    specialize (Hn2 p Hp). destruct (σ !! p) as [n|] eqn:Hσ; [|done].
    apply He1 in Hσ. congruence.
  - intros q n Hq. by apply He2, He1.
Qed.

Lemma visit_nodes_alloc (nodes : list Node) :
  ∀ (σ : store) (acc : list ptr),
  ∃ σ' ps, visit_nodes collect_node nodes σ acc = (σ', acc ++ ps, true) ∧
           allocated σ σ' ps nodes.
Proof.
  induction nodes as [|n nodes IH]; intros σ acc; simpl.
  - exists σ, []. rewrite app_nil_r. split; [done|]. apply allocated_nil.
  - set (p := fresh (dom σ)).
    assert (Hp : σ !! p = None) by (apply not_elem_of_dom, is_fresh).
    destruct (IH (<[p := n]> σ) (acc ++ [p])) as (σ' & ps & Hv & Hal).
    rewrite Hv. exists σ', (p :: ps). split.
    + by rewrite <- app_assoc.
    + apply (allocated_app σ (<[p := n]> σ) σ' [p] ps [n] nodes); [|done].
      split; [|split].
      * constructor; [by rewrite lookup_insert_eq|constructor].
      * intros q Hq. apply list_elem_of_singleton in Hq. by subst q.
      * intros q nq Hq. rewrite lookup_insert_ne; [done|]. intros <-. congruence.
Qed.

Lemma deref_all_extend (σ σ' : store) (ps : list ptr) :
  (∀ p, p ∈ ps → is_Some (σ !! p)) →
  (∀ q n, σ !! q = Some n → σ' !! q = Some n) →
  deref_all σ' ps = deref_all σ ps.
Proof.
  intros Hv He. induction ps as [|p ps IH]; simpl; [done|].
  destruct (Hv p) as [n Hn]; [by left|].
  rewrite Hn, (He p n Hn), IH; [done|]. intros q Hq. apply Hv. by right.
Qed.

Lemma Nodes_extend (σ σ' : store) (group : affinityGroup) :
  valid_ptrs σ group →
  (∀ q n, σ !! q = Some n → σ' !! q = Some n) →
  Nodes σ' group = Nodes σ group.
Proof.
  intros Hv He. unfold Nodes. apply deref_all_extend; [|done].
  intros p Hp. apply list_elem_of_fmap in Hp as ([h q] & -> & Hin).
  apply elem_of_map_to_list in Hin. by eapply Hv.
Qed.

Lemma iterNodes_alloc (σ0 : store) (ct : affinityGroups) :
  (∀ g, g ∈ ct → valid_ptrs σ0 g) →
  ∀ (σ : store) (acc : list ptr),
    (∀ q n, σ0 !! q = Some n → σ !! q = Some n) →
    ∃ σ' ps nss,
      iterNodes collect_node ct σ acc = Ret (σ', acc ++ ps) ∧
      Forall2 (λ g ns, Nodes σ0 g = Ret ns) ct nss ∧
      allocated σ σ' ps (concat nss).
Proof.
  induction ct as [|group ct IH]; intros Hvalid σ acc Hext; simpl.
  - exists σ, [], []. rewrite app_nil_r. split; [done|]. split; [constructor|].
    apply allocated_nil.
  - assert (Hvg : valid_ptrs σ0 group) by (apply Hvalid; by left).
    destruct (Nodes_valid σ0 group Hvg) as (ns & Hns & _).
    rewrite (Nodes_extend σ0 σ group Hvg Hext), Hns, run_bind_Ret.
    destruct (visit_nodes_alloc ns σ acc) as (σ1 & ps1 & Hv & Hal1).
    rewrite Hv.
    destruct (IH (λ g Hg, Hvalid g (list_elem_of_further _ _ _ Hg)) σ1 (acc ++ ps1))
      as (σ' & ps2 & nss & Hit & Hf & Hal2).
    { intros q n Hq. destruct Hal1 as (_ & _ & He1). by apply He1, Hext. }
    rewrite Hit. exists σ', (ps1 ++ ps2), (ns :: nss). split; [|split].
    + by rewrite <- app_assoc.
    + by constructor.
    + simpl. by eapply allocated_app.
Qed.

Lemma Nodes_elem_of (σ : store) (group : affinityGroup) (ns : list Node) (n : Node) :
  Nodes σ group = Ret ns →
  n ∈ ns ↔ ∃ h p, m group !! h = Some p ∧ σ !! p = Some n.
Proof.
  unfold Nodes. rewrite deref_all_Ret. intros Hf. split.
  - intros Hn. apply list_elem_of_lookup in Hn as (i & Hi).
    destruct (Forall2_lookup_r _ _ _ _ _ Hf Hi) as (p & Hp & Hpn).
    apply list_lookup_fmap_Some in Hp as ([h q] & -> & Hq). simpl in *.
    apply list_elem_of_lookup_2, elem_of_map_to_list in Hq. by exists h, q.
  - intros (h & p & Hm & Hp). apply elem_of_map_to_list in Hm.
    apply list_elem_of_lookup in Hm as (i & Hi).
    assert (Hpi : (map_to_list (m group)).*2 !! i = Some p)
      by (apply list_lookup_fmap_Some; by exists (h, p)).
    destruct (Forall2_lookup_l _ _ _ _ _ Hf Hpi) as (n' & Hn' & Hpn').
    assert (n' = n) by congruence. subst n'. by eapply list_elem_of_lookup_2.
Qed.

(** A membership call writes only to records the group points to, or to
    the node handed to [addNode]; and it adds no other pointer to the
    group. *)
Lemma exec_frame (c : call) (σ σ' : store) (group group' : affinityGroup)
    (e : option error) (q : ptr) :
  exec c σ group = Ret (σ', group', e) →
  (∀ h, m group !! h ≠ Some q) →
  (∀ force now, c ≠ AddNode q force now) →
  σ' !! q = σ !! q ∧ ∀ h, m group' !! h ≠ Some q.
Proof.
  intros Hexec Hout Hnode.
  destruct c as [node force now|h|h coord rtt now]; simpl in Hexec.
  - unfold addNode in Hexec. destruct (σ !! node) as [n|] eqn:Hn; [|done].
    assert (node ≠ q) by (intros ->; by eapply Hnode).
    destruct (bool_decide _ && negb force); injection Hexec as <- <- <-; [done|].
    split; [by rewrite lookup_insert_ne|]. intros h'. simpl.
    destruct (decide (Host n = h')) as [<-|Hne].
    + rewrite lookup_insert_eq. congruence.
    + rewrite lookup_insert_ne by done. apply Hout.
  - unfold removeNode in Hexec.
    destruct (m group !! h); injection Hexec as <- <- <-; [|done].
    split; [done|]. intros h'. simpl.
    destruct (decide (h = h')) as [<-|Hne].
    + by rewrite lookup_delete_eq.
    + rewrite lookup_delete_ne by done. apply Hout.
  - unfold pingNode in Hexec. destruct (m group !! h) as [p|] eqn:Hp.
    + destruct (σ !! p) as [n|]; [|done]. injection Hexec as <- <- <-.
      assert (p ≠ q) by (intros ->; by eapply Hout).
      split; [by rewrite lookup_insert_ne|]. intros h'. simpl.
      destruct (decide (h = h')) as [<-|Hne].
      * rewrite lookup_insert_eq. congruence.
      * rewrite lookup_insert_ne by done. apply Hout.
    + by injection Hexec as <- <- <-.
Qed.

Lemma apply_mutation_spares (s : Snapshot) (mu : mutation)
    (σ σ' : store) (lrpc lrpc' : localGroup) :
  spares s mu →
  apply_mutation mu σ lrpc = Ret (σ', lrpc') →
  (∀ g h p, g ∈ groups lrpc → m g !! h = Some p → p ∉ SnapNodes s) →
  (∀ p, p ∈ SnapNodes s → σ' !! p = σ !! p) ∧
  (∀ g h p, g ∈ groups lrpc' → m g !! h = Some p → p ∉ SnapNodes s).
Proof.
  intros Hsp Hap Hinv. destruct mu as [key host|key host|gi c]; simpl in Hap.
  - by injection Hap as <- <-.
  - by injection Hap as <- <-.
  - destruct (groups lrpc !! gi) as [group|] eqn:Hgi; [|done].
    destruct (exec c σ group) as [[[σ1 g1] e]| |] eqn:Hexec; [|done..].
    simpl in Hap. injection Hap as <- <-. simpl.
    assert (Hin : group ∈ groups lrpc) by (by eapply list_elem_of_lookup_2).
    assert (Hfr : ∀ p, p ∈ SnapNodes s →
              σ1 !! p = σ !! p ∧ ∀ h, m g1 !! h ≠ Some p).
    { intros p Hp. eapply exec_frame; [exact Hexec| |].
      - intros h Hh. by eapply Hinv.
      - intros force now ->. simpl in Hsp. done. }
    split; [intros p Hp; by apply Hfr|].
    intros g h p Hg Hm Hp. apply list_elem_of_lookup in Hg as (j & Hj).
    apply list_lookup_insert_Some in Hj as [(-> & <- & _)|[_ Hj]].
    + by eapply (Hfr p Hp).
    + eapply Hinv; [by eapply list_elem_of_lookup_2|exact Hm|exact Hp].
Qed.

Lemma apply_mutations_spare (s : Snapshot) (mus : list mutation) :
  ∀ (σ σ' : store) (lrpc lrpc' : localGroup),
    Forall (spares s) mus →
    apply_mutations mus σ lrpc = Ret (σ', lrpc') →
    (∀ g h p, g ∈ groups lrpc → m g !! h = Some p → p ∉ SnapNodes s) →
    ∀ p, p ∈ SnapNodes s → σ' !! p = σ !! p.
Proof.
  induction mus as [|mu mus IH]; intros σ σ' lrpc lrpc' Hsp Hap Hinv p Hp;
    simpl in Hap.
  - by injection Hap as <- <-.
  - inversion Hsp as [|? ? Hmu Hrest]; subst.
    destruct (apply_mutation mu σ lrpc) as [[σ1 lrpc1]| |] eqn:Hone; [|done..].
    simpl in Hap.
    destruct (apply_mutation_spares s mu σ σ1 lrpc lrpc1 Hmu Hone Hinv)
      as [Hsame Hinv1].
    rewrite (IH σ1 σ' lrpc1 lrpc' Hrest Hap Hinv1 p Hp). by apply Hsame.
Qed.

(** (C8, as amended) On a store in which every member pointer leads to a record,
    [Snapshot] returns; its tuples are exactly the (key, hosts) entries of
    the tuple directory; its node pointers lead to exactly the copies
    that [Nodes] gives for the groups, group after group, so a record is
    in the snapshot if and only if some group holds it; the records of
    the live system are left as they were; and no later sequence of
    directory inserts and deletes and of [addNode], [removeNode] and
    [pingNode] calls on the groups changes what the snapshot shows, as
    long as [addNode] is not handed one of the snapshot's own records. *)
Theorem Snapshot_spec (lrpc : localGroup) (σ : store) :
  (∀ g, g ∈ groups lrpc → valid_ptrs σ g) →
  ∃ σ' s nss,
    take_Snapshot lrpc σ = Ret (σ', s) ∧
    (∀ key hosts, {| Key := key; Hosts := hosts |} ∈ Tuples s ↔
                  tuples lrpc !! key = Some hosts) ∧
    length (Tuples s) = size (tuples lrpc) ∧
    Forall2 (λ g ns, Nodes σ g = Ret ns) (groups lrpc) nss ∧
    deref_all σ' (SnapNodes s) = Ret (concat nss) ∧
    (∀ n, n ∈ concat nss ↔
          ∃ g h p, g ∈ groups lrpc ∧ m g !! h = Some p ∧ σ !! p = Some n) ∧
    (∀ q n, σ !! q = Some n → σ' !! q = Some n) ∧
    ∀ mus σ'' lrpc'',
      Forall (spares s) mus →
      apply_mutations mus σ' lrpc = Ret (σ'', lrpc'') →
      snapshot_view σ'' s = snapshot_view σ' s.
Proof.
  intros Hvalid. unfold take_Snapshot.
  destruct (iterNodes_alloc σ (groups lrpc) Hvalid σ []) as
    (σ' & ps & nss & Hit & Hf & Hal & Hnew & Hext); [done|].
  rewrite Hit, run_bind_Ret. simpl app.
  eexists σ', _, nss. split; [reflexivity|]. simpl Tuples. simpl SnapNodes.
  unfold tuples_Iter. rewrite visit_tuples_collect. simpl app.
  split; [|split; [|split; [exact Hf|split; [|split; [|split; [exact Hext|]]]]]].
  - intros key hosts. rewrite list_elem_of_fmap. split.
    + intros ([k h] & [= -> ->] & Hin). by apply elem_of_map_to_list in Hin.
    + intros Hk. exists (key, hosts). split; [done|]. by apply elem_of_map_to_list.
  - by rewrite length_fmap, length_map_to_list.
  - by apply deref_all_Ret.
  - intros n. rewrite elem_of_concat. split.
    + intros (ns & Hn & Hns). apply list_elem_of_lookup in Hns as (i & Hi).
      destruct (Forall2_lookup_r _ _ _ _ _ Hf Hi) as (g & Hg & Hgn).
      apply (Nodes_elem_of σ g ns n Hgn) in Hn as (h & p & Hm & Hp).
      exists g, h, p. split; [by eapply list_elem_of_lookup_2|done].
    + intros (g & h & p & Hg & Hm & Hp). apply list_elem_of_lookup in Hg as (i & Hi).
      destruct (Forall2_lookup_l _ _ _ _ _ Hf Hi) as (ns & Hns & Hgn).
      exists ns. split; [|by eapply list_elem_of_lookup_2].
      apply (Nodes_elem_of σ g ns n Hgn). by exists h, p.
  - intros mus σ'' lrpc'' Hsp Hap. unfold snapshot_view. simpl. f_equal.
    apply Forall_fmap_ext, Forall_forall. intros p Hp.
    apply (apply_mutations_spare _ mus σ' σ'' lrpc lrpc'' Hsp Hap); [|done].
    simpl. intros g h q Hg Hm Hq.
    destruct (Hvalid g Hg h q Hm) as [n Hn]. specialize (Hnew q Hq). congruence.
Qed.

(** * Further properties of the code *)

(** ** [get] on arbitrary lists *)

(** (X1) On every non-empty group list, sorted or not, and for every
    hash, [get] stops within its halvings without indexing out of range
    and returns a group of the list; on the empty list it panics on
    [arr[0]]. *)
Theorem get_returns_member (ct : affinityGroups) (v : list byte) :
  ct ≠ [] →
  (∃ g, get ct v = Ret g ∧ g ∈ ct) ∧ get [] v = Panic.
Proof.
  intros Hne. split; [|reflexivity].
  apply get_loop_total; [done|lia].
Qed.

(** (X2) On a list of boundaries that all have the length of the hash,
    increase strictly, and start at or below the hash, [get] returns the
    one group with the greatest boundary not above the hash; a group whose
    boundary is the hash itself is the one returned. *)
Theorem get_finds_greatest (ct : affinityGroups) (v : list byte) :
  (∀ g, g ∈ ct → length (id g) = length v) →
  increasing ct →
  (∃ g0, ct !! 0%nat = Some g0 ∧ boundary g0 ≤ be_value v) →
  ∃ g, get ct v = Ret g ∧ locates ct v g ∧
       (∀ g', locates ct v g' → g' = g) ∧
       (∀ g', g' ∈ ct → id g' = v → g' = g).
Proof.
  intros Hwidth Hinc Hfirst.
  destruct (get_loop_greatest (S (length ct)) (length ct) ct v)
    as (g & Hg & Hloc); [lia|lia|done|done|done|].
  exists g. split; [exact Hg|]. split; [exact Hloc|].
  assert (Huniq : ∀ g', locates ct v g' → g' = g)
    by (intros g' Hg'; eapply locates_unique; eauto).
  split; [exact Huniq|].
  intros g' Hin Hid. apply Huniq. split; [done|]. unfold boundary at 1.
  rewrite Hid. split; [lia|]. intros g'' _ H. unfold boundary at 2.
  by rewrite Hid.
Qed.

(** ** The partition built by [genAffinityGroups] *)

Lemma has_digits_exists (x : Z) : 0 ≤ x → ∃ k, has_digits k x.
Proof.
  intros Hx. destruct (decide (x = 0)) as [->|Hne]; [by exists 0%nat|].
  exists (S (Z.to_nat (Z.log2 x / 8))). unfold has_digits.
  pose proof (Z.log2_spec x ltac:(lia)) as [Hlo Hhi].
  pose proof (Z.log2_nonneg x) as Hl.
  assert (Hq : 0 ≤ Z.log2 x / 8) by (apply Z.div_pos; lia).
  pose proof (Z.mul_div_le (Z.log2 x) 8 ltac:(lia)) as Hq1.
  pose proof (Z.mul_succ_div_gt (Z.log2 x) 8 ltac:(lia)) as Hq2.
  rewrite Nat2Z.inj_succ, Z2Nat.id by done.
  replace 256 with (2 ^ 8) by reflexivity. rewrite <- !Z.pow_mul_r by lia.
  split.
  - transitivity (2 ^ Z.log2 x); [|done]. apply Z.pow_le_mono_r; lia.
  - eapply Z.lt_le_trans; [exact Hhi|]. apply Z.pow_le_mono_r; lia.
Qed.

Lemma Bytes_value (x : Z) : 0 ≤ x → be_value (Bytes x) = x.
Proof.
  intros Hx. destruct (has_digits_exists x Hx) as [k Hk].
  by destruct (Bytes_spec k x Hk).
Qed.

(** (X3) For every group count of at least one and every hash length,
    [genAffinityGroups] returns that many groups; every group carries its
    position as [index], has no member, and its boundary denotes the
    number [index * (2^(8*hashSize) / numGroups)], whatever the byte
    length of the boundary. *)
Theorem gen_shape (N L : Z) :
  1 ≤ N → 0 ≤ L → 8 * L < 2 ^ 63 →
  ∃ gs, genAffinityGroups N L = Ret gs ∧
    Z.of_nat (length gs) = N ∧
    well_indexed gs ∧
    ∀ (i : nat) g, gs !! i = Some g →
      m g = ∅ ∧ boundary g = Z.of_nat i * (2 ^ (8 * L) / N).
Proof.
  intros HN HL HL8.
  assert (Hgen := genAffinityGroups_unfold N L HN HL HL8).
  match type of Hgen with _ = Ret ?l => set (gs := l) in * end.
  assert (Hlen := gen_length N L gs HN HL HL8 Hgen).
  exists gs. split; [exact Hgen|]. split; [exact Hlen|]. split.
  - intros i g Hi. by eapply gen_index.
  - intros i g Hi. apply lookup_lt_Some in Hi as Hlt. destruct i as [|i].
    + rewrite (gen_lookup_0 N L gs) in Hi by done. injection Hi as <-.
      split; [done|]. unfold boundary. simpl. unfold make_bytes.
      rewrite be_value_replicate_zero. lia.
    + rewrite (gen_lookup_S N L gs i) in Hi by (done || lia). injection Hi as <-.
      split; [done|]. unfold boundary. simpl id. apply Bytes_value.
      assert (0 ≤ 2 ^ (8 * L) / N); [|lia].
      apply Z.div_pos; [|lia]. apply Z.pow_nonneg. lia.
Qed.

(** (X4) With at most 256 groups and hashes of at least one byte, the
    group that [get] returns for a hash [v] on the list built by
    [genAffinityGroups] is the one at position [v / span], where [span]
    is [2^(8*hashSize) / numGroups], and the last group for the hashes
    beyond [numGroups * span]. *)
Theorem get_gen_index (N L : Z) (v : list byte) :
  1 ≤ L → 8 * L < 2 ^ 63 → 1 ≤ N ≤ 256 → Z.of_nat (length v) = L →
  ∃ gs g, genAffinityGroups N L = Ret gs ∧ get gs v = Ret g ∧
    index g = Z.min (be_value v / (2 ^ (8 * L) / N)) (N - 1).
Proof.
  intros HL HL8 HN Hv.
  destruct (get_locates_small N L v HL HL8 HN Hv)
    as (gs & g & Hgen & Hget & (Hin & Hle & Hmax) & _).
  exists gs, g. split; [exact Hgen|]. split; [exact Hget|].
  assert (Hlen := gen_length N L gs ltac:(lia) ltac:(lia) HL8 Hgen).
  apply list_elem_of_lookup in Hin as (j & Hj).
  apply lookup_lt_Some in Hj as Hjlt.
  rewrite (gen_index N L gs j g ltac:(lia) ltac:(lia) HL8 Hgen Hj).
  destruct (gen_boundary N L gs j g HL HL8 HN Hgen Hj) as [_ Hbj].
  fold (boundary g) in Hbj. rewrite Hbj in Hle.
  pose proof (span_pos N L HL HN) as Hspan.
  set (span := 2 ^ (8 * L) / N) in *.
  assert (Hjq : Z.of_nat j ≤ be_value v / span)
    by (apply Z.div_le_lower_bound; lia).
  destruct (decide (S j < length gs)%nat) as [Hnext|Hlast].
  - destruct (lookup_lt_is_Some_2 gs (S j) Hnext) as [g' Hg'].
    destruct (gen_boundary N L gs (S j) g' HL HL8 HN Hgen Hg') as [_ Hbj'].
    fold (boundary g') in Hbj'. fold span in Hbj'.
    assert (Hlt : be_value v < Z.of_nat (S j) * span).
    { destruct (Z.lt_ge_cases (be_value v) (Z.of_nat (S j) * span)) as [H|H];
        [done|].
      assert (boundary g' ≤ boundary g).
      { apply Hmax; [by eapply list_elem_of_lookup_2|]. rewrite Hbj'. lia. }
      rewrite Hbj, Hbj' in *. nia. }
    assert (be_value v / span < Z.of_nat (S j))
      by (apply Z.div_lt_upper_bound; lia).
    lia.
  - lia.
Qed.

(** ** [Nodes], [count] and [nodeCount] *)

(** (X5) When every member pointer of a group leads to a record, [Nodes]
    returns without panic as many records as [count] says, and a record
    is among them exactly when it is the record of a member. *)
Theorem Nodes_members (σ : store) (group : affinityGroup) :
  valid_ptrs σ group →
  ∃ ns, Nodes σ group = Ret ns ∧
    Z.of_nat (length ns) = count group ∧
    ∀ n, n ∈ ns ↔ ∃ h p, m group !! h = Some p ∧ σ !! p = Some n.
Proof.
  intros Hv. destruct (Nodes_valid σ group Hv) as (ns & Hns & Hlen).
  exists ns. split; [exact Hns|]. split.
  - unfold count. by rewrite Hlen.
  - intros n. by apply Nodes_elem_of.
Qed.

Lemma nodeCount_foldl (ct : affinityGroups) : ∀ c,
  foldl (λ c g, c + count g) c ct = c + nodeCount ct.
Proof.
  unfold nodeCount. induction ct as [|g ct IH]; intros c; simpl; [lia|].
  rewrite (IH (c + count g)), (IH (0 + count g)). lia.
Qed.

Lemma nodeCount_cons (g : affinityGroup) (ct : affinityGroups) :
  nodeCount (g :: ct) = count g + nodeCount ct.
Proof.
  unfold nodeCount at 1. simpl. rewrite nodeCount_foldl. lia.
Qed.

Lemma nodeCount_concat (σ : store) (ct : affinityGroups) (nss : list (list Node)) :
  (∀ g, g ∈ ct → valid_ptrs σ g) →
  Forall2 (λ g ns, Nodes σ g = Ret ns) ct nss →
  Z.of_nat (length (concat nss)) = nodeCount ct.
Proof.
  intros Hvalid Hf. induction Hf as [|g ns ct nss Hg Hf IH]; [done|].
  rewrite nodeCount_cons. simpl. rewrite length_app, Nat2Z.inj_add.
  rewrite IH by (intros g' Hg'; apply Hvalid; by right).
  destruct (Nodes_valid σ g) as (ns' & Hns' & Hlen); [apply Hvalid; by left|].
  assert (ns' = ns) by congruence. subst ns'. unfold count. lia.
Qed.

(** (X6) The snapshot holds exactly [nodeCount] node records: the
    capacity that [Snapshot] reserves for them is the number it appends. *)
Theorem Snapshot_node_count (lrpc : localGroup) (σ : store) :
  (∀ g, g ∈ groups lrpc → valid_ptrs σ g) →
  ∃ σ' s, take_Snapshot lrpc σ = Ret (σ', s) ∧
    Z.of_nat (length (SnapNodes s)) = nodeCount (groups lrpc).
Proof.
  intros Hvalid. unfold take_Snapshot.
  destruct (iterNodes_alloc σ (groups lrpc) Hvalid σ []) as
    (σ' & ps & nss & Hit & Hf & Hal & _); [done|].
  rewrite Hit, run_bind_Ret. eexists _, _. split; [reflexivity|]. simpl.
  rewrite (Forall2_length _ _ _ Hal).
  by apply (nodeCount_concat σ).
Qed.

(** ** Stopping [iterNodes] *)

Lemma visit_nodes_collect (keep : Node → bool) (ns : list Node) :
  ∀ (σ : store) (acc : list Node),
    visit_nodes (collect_while keep) ns σ acc =
      (σ, acc ++ through_first_stop keep ns, forallb keep ns).
Proof.
  induction ns as [|n ns IH]; intros σ acc; simpl.
  - by rewrite app_nil_r.
  - destruct (keep n); simpl.
    + rewrite IH. by rewrite <- app_assoc.
    + done.
Qed.

Lemma through_first_stop_app (keep : Node → bool) (l1 l2 : list Node) :
  through_first_stop keep (l1 ++ l2) =
    if forallb keep l1 then l1 ++ through_first_stop keep l2
    else through_first_stop keep l1.
Proof.
  induction l1 as [|x l1 IH]; simpl; [done|].
  destruct (keep x); simpl; [|done]. rewrite IH. by destruct (forallb keep l1).
Qed.

Lemma iterNodes_collect (keep : Node → bool) (σ : store) (ct : affinityGroups) :
  (∀ g, g ∈ ct → valid_ptrs σ g) →
  ∀ acc, ∃ nss,
    Forall2 (λ g ns, Nodes σ g = Ret ns) ct nss ∧
    iterNodes (collect_while keep) ct σ acc =
      Ret (σ, acc ++ through_first_stop keep (concat nss)).
Proof.
  induction ct as [|g ct IH]; intros Hvalid acc; simpl.
  - exists []. split; [constructor|]. by rewrite app_nil_r.
  - destruct (Nodes_valid σ g) as (ns & Hns & _); [apply Hvalid; by left|].
    rewrite Hns, run_bind_Ret, visit_nodes_collect.
    destruct (IH (λ g' Hg', Hvalid g' (list_elem_of_further _ _ _ Hg'))
                (acc ++ through_first_stop keep ns)) as (nss & Hf & Hit).
    exists (ns :: nss). split; [by constructor|]. simpl.
    rewrite through_first_stop_app. destruct (forallb keep ns) eqn:Hall.
    + rewrite Hit. rewrite <- app_assoc.
      assert (Hsame : through_first_stop keep ns = ns).
      { clear -Hall. induction ns as [|x ns IHn]; simpl in *; [done|].
        destruct (keep x); [|done]. simpl in Hall. by rewrite IHn. }
      by rewrite Hsame.
    + done.
Qed.

(** (X7) [iterNodes] shows its visitor the nodes of the groups in list
    order, group after group, and stops for good at the first node for
    which the visitor answers [false]: no node of the same group or of a
    later group is visited after it. *)
Theorem iterNodes_stops (keep : Node → bool) (σ : store) (ct : affinityGroups) :
  (∀ g, g ∈ ct → valid_ptrs σ g) →
  ∃ nss,
    Forall2 (λ g ns, Nodes σ g = Ret ns) ct nss ∧
    iterNodes (collect_while keep) ct σ [] =
      Ret (σ, through_first_stop keep (concat nss)).
Proof.
  intros Hvalid. exact (iterNodes_collect keep σ ct Hvalid []).
Qed.

(** ** None from [nextClosestGroup] *)

Lemma nextClosestGroup_walk (σ : store) (ct : affinityGroups)
    (g : affinityGroup) (gi : nat) :
  well_indexed ct → index g = Z.of_nat gi → (gi < length ct)%nat →
  valid_ptrs σ g → (∀ g', g' ∈ ct → valid_ptrs σ g') →
  nextClosestGroup σ ct g =
    Ret (if has_nodes g then Some g
         else List.find has_nodes
                (reverse (take gi ct) ++ reverse (drop (S gi) ct))).
Proof.
  intros Hidx Hg Hgi Hvg Hvalid. unfold nextClosestGroup.
  destruct (Nodes_empty σ g Hvg) as (nodes & Hn & Hlen).
  rewrite Hn, run_bind_Ret, Hg.
  rewrite (nextClosestGroup_loop_walk σ ct gi Hidx Hgi Hvalid
             (S (length ct)) gi g nodes); [|
    pose proof (walk_back_length ct gi gi ltac:(lia) Hgi); lia | done | done | done].
  unfold walk_back. by rewrite decide_True by lia.
Qed.

Lemma elem_of_others (ct : affinityGroups) (gi : nat) (r : affinityGroup) :
  r ∈ reverse (take gi ct) ++ reverse (drop (S gi) ct) ↔
  ∃ i, ct !! i = Some r ∧ i ≠ gi.
Proof.
  rewrite elem_of_app, !elem_of_reverse. split.
  - intros [Hin|Hin].
    + apply elem_of_take in Hin as (i & Hi & Hlt). exists i. split; [done|lia].
    + apply list_elem_of_lookup in Hin as (i & Hi). rewrite lookup_drop in Hi.
      exists (S gi + i)%nat. split; [done|lia].
  - intros (i & Hi & Hne). destruct (decide (i < gi)%nat) as [Hlt|Hge].
    + left. apply elem_of_take. by exists i.
    + right. apply list_elem_of_lookup. exists (i - S gi)%nat.
      rewrite lookup_drop. by replace (S gi + (i - S gi))%nat with i by lia.
Qed.

(** (X8) On a group list whose groups carry their positions as [index],
    [nextClosestGroup] answers none exactly when the start group and
    every group at another position have no member; and a group it
    returns always has a member and is the start group or a group of the
    list at another position. *)
Theorem nextClosestGroup_none_iff (σ : store) (ct : affinityGroups)
    (g : affinityGroup) (gi : nat) :
  well_indexed ct → index g = Z.of_nat gi → (gi < length ct)%nat →
  valid_ptrs σ g → (∀ g', g' ∈ ct → valid_ptrs σ g') →
  (nextClosestGroup σ ct g = Ret None ↔
     has_nodes g = false ∧
     ∀ i g', ct !! i = Some g' → i ≠ gi → has_nodes g' = false) ∧
  (∀ r, nextClosestGroup σ ct g = Ret (Some r) →
     has_nodes r = true ∧ (r = g ∨ ∃ i, ct !! i = Some r ∧ i ≠ gi)).
Proof.
  intros Hidx Hg Hgi Hvg Hvalid.
  rewrite (nextClosestGroup_walk σ ct g gi Hidx Hg Hgi Hvg Hvalid).
  destruct (has_nodes g) eqn:Hhas.
  - split.
    + split; [done|]. by intros [? _].
    + intros r [= <-]. split; [done|by left].
  - destruct (List.find has_nodes _) as [r|] eqn:Hfind.
    + apply List.find_some in Hfind as [Hin Hr].
      apply list_elem_of_In, elem_of_others in Hin as (i & Hi & Hne).
      split.
      * split; [done|]. intros [_ Hall]. rewrite (Hall i r Hi Hne) in Hr. done.
      * intros r' [= <-]. split; [done|]. right. by exists i.
    + split; [|done]. split; [|done]. intros _. split; [done|].
      intros i g' Hi Hne.
      assert (Hin : g' ∈ reverse (take gi ct) ++ reverse (drop (S gi) ct))
        by (apply elem_of_others; by exists i).
      apply list_elem_of_In in Hin.
      pose proof (List.find_none _ _ Hfind g' Hin) as Hnone. done.
Qed.

(** ** Leaving and joining *)

(** (X9) [removeNode] of a member succeeds: the host is no member any
    more, the other members stay, [count] drops by one, the store, the
    boundary and the position are untouched; and a second [removeNode] of
    the same host fails with a not-found error. *)
Theorem removeNode_spec (σ : store) (group : affinityGroup)
    (hostname : string) (p : ptr) :
  m group !! hostname = Some p →
  ∃ group',
    removeNode hostname σ group = Ret (σ, group', None) ∧
    m group' !! hostname = None ∧
    (∀ h, h ≠ hostname → m group' !! h = m group !! h) ∧
    count group' = count group - 1 ∧
    same_place group group' ∧
    removeNode hostname σ group' =
      Ret (σ, group', Some (errNodeNotFound hostname)).
Proof.
  intros Hm. unfold removeNode at 1. rewrite Hm. eexists. split; [reflexivity|].
  simpl. split; [by rewrite lookup_delete_eq|]. split; [|split; [|split]].
  - intros h Hne. by rewrite lookup_delete_ne.
  - unfold count. simpl. rewrite map_size_delete_Some by (by eexists).
    assert (size (m group) ≠ 0%nat); [|lia].
    intros Hs. apply map_size_empty_iff in Hs. rewrite Hs in Hm.
    by rewrite lookup_empty in Hm.
  - done.
  - unfold removeNode. simpl. by rewrite lookup_delete_eq.
Qed.

(** (X10) Adding a node whose host is not yet a member raises [count] by
    one, and removing that host again gives back the group as it was;
    adding with [force] a node whose host is a member leaves [count] as
    it is. *)
Theorem addNode_then_removeNode (σ : store) (group : affinityGroup)
    (node : ptr) (n : Node) (force : bool) (now : Z) :
  σ !! node = Some n →
  ∃ σ' group',
    (m group !! Host n = None →
       addNode node force now σ group = Ret (σ', group', None) ∧
       count group' = count group + 1 ∧
       removeNode (Host n) σ' group' = Ret (σ', group, None)) ∧
    (is_Some (m group !! Host n) →
       addNode node true now σ group = Ret (σ', group', None) ∧
       count group' = count group).
Proof.
  intros Hn. eexists _, _. split.
  - intros Hnone. unfold addNode. rewrite Hn.
    rewrite bool_decide_eq_false_2 by (rewrite Hnone; by intros [? ?]).
    simpl. split; [reflexivity|]. split.
    + unfold count. simpl. rewrite map_size_insert_None by done. lia.
    + unfold removeNode. simpl. rewrite lookup_insert_eq.
      rewrite delete_insert_id by done. by destruct group.
  - intros Hsome. unfold addNode. rewrite Hn. rewrite andb_false_r.
    split; [reflexivity|]. unfold count. simpl.
    by rewrite map_size_insert_Some.
Qed.

(** ** Well-formed states are kept *)

Lemma exec_hosts_kept (c : call) (σ σ' : store) (group group' : affinityGroup)
    (e : option error) :
  exec c σ group = Ret (σ', group', e) →
  ∀ q n, σ !! q = Some n → ∃ n', σ' !! q = Some n' ∧ Host n' = Host n.
Proof.
  intros Hexec q n Hq.
  destruct c as [node force now|h|h coord rtt now]; simpl in Hexec.
  - unfold addNode in Hexec. destruct (σ !! node) as [nn|] eqn:Hn; [|done].
    destruct (bool_decide _ && negb force); injection Hexec as <- <- <-;
      [by exists n|].
    destruct (decide (node = q)) as [->|Hne].
    + rewrite lookup_insert_eq. eexists. split; [done|]. simpl. congruence.
    + rewrite lookup_insert_ne by done. by exists n.
  - unfold removeNode in Hexec.
    destruct (m group !! h); injection Hexec as <- <- <-; by exists n.
  - unfold pingNode in Hexec. destruct (m group !! h) as [p|] eqn:Hp.
    + destruct (σ !! p) as [np|] eqn:Hnp; [|done]. injection Hexec as <- <- <-.
      destruct (decide (p = q)) as [->|Hne].
      * rewrite lookup_insert_eq. eexists. split; [done|]. simpl. congruence.
      * rewrite lookup_insert_ne by done. by exists n.
    + injection Hexec as <- <- <-. by exists n.
Qed.

Lemma keyed_hosts_kept (σ σ' : store) (group : affinityGroup) :
  keyed σ group →
  (∀ q n, σ !! q = Some n → ∃ n', σ' !! q = Some n' ∧ Host n' = Host n) →
  keyed σ' group.
Proof.
  intros Hk Hkeep h p Hm. destruct (Hk h p Hm) as (n & Hn & Hh).
  destruct (Hkeep p n Hn) as (n' & Hn' & Hh'). exists n'. split; [done|].
  congruence.
Qed.

Lemma keyed_valid (σ : store) (group : affinityGroup) :
  keyed σ group → valid_ptrs σ group.
Proof.
  intros Hk h p Hm. destruct (Hk h p Hm) as (n & Hn & _). by exists n.
Qed.

Lemma exec_keyed (c : call) (σ : store) (group : affinityGroup) :
  keyed σ group → call_ok c σ →
  ∃ σ' group' e,
    exec c σ group = Ret (σ', group', e) ∧
    keyed σ' group' ∧ same_place group group'.
Proof.
  intros Hk Hok.
  destruct c as [node force now|h|h coord rtt now]; simpl in *.
  - destruct Hok as [n Hn]. unfold addNode. rewrite Hn.
    destruct (bool_decide _ && negb force); eexists _, _, _;
      (split; [reflexivity|]); [done|]. split; [|done].
    intros h p. simpl. destruct (decide (Host n = h)) as [<-|Hne].
    + rewrite lookup_insert_eq. intros [= <-]. rewrite lookup_insert_eq.
      by eexists.
    + rewrite lookup_insert_ne by done. intros Hm.
      destruct (Hk h p Hm) as (r & Hr & Hh).
      destruct (decide (node = p)) as [->|Hnp].
      * rewrite lookup_insert_eq. eexists. split; [done|]. simpl. congruence.
      * rewrite lookup_insert_ne by done. by exists r.
  - unfold removeNode. destruct (m group !! h) as [p|] eqn:Hp;
      eexists _, _, _; (split; [reflexivity|]); [|done]. split; [|done].
    intros h' p'. simpl. destruct (decide (h = h')) as [<-|Hne].
    + by rewrite lookup_delete_eq.
    + rewrite lookup_delete_ne by done. apply Hk.
  - unfold pingNode. destruct (m group !! h) as [p|] eqn:Hp.
    + destruct (Hk h p Hp) as (n & Hn & Hh). rewrite Hn.
      eexists _, _, _. split; [reflexivity|]. split; [|done].
      intros h' p'. simpl. intros Hm.
      assert (Hm' : m group !! h' = Some p').
      { destruct (decide (h = h')) as [<-|Hne].
        - rewrite lookup_insert_eq in Hm. congruence.
        - by rewrite lookup_insert_ne in Hm. }
      destruct (Hk h' p' Hm') as (r & Hr & Hh').
      destruct (decide (p = p')) as [->|Hnp].
      * rewrite lookup_insert_eq. eexists. split; [done|]. simpl. congruence.
      * rewrite lookup_insert_ne by done. by exists r.
    + eexists _, _, _. split; [reflexivity|]. done.
Qed.

Lemma Forall2_same_place_refl (ct : affinityGroups) : Forall2 same_place ct ct.
Proof.
  induction ct; constructor; [done|done].
Qed.

Lemma apply_mutation_ok (mu : mutation) (σ : store) (lrpc : localGroup) :
  (∀ g, g ∈ groups lrpc → keyed σ g) →
  mutation_ok mu σ lrpc →
  ∃ σ' lrpc',
    apply_mutation mu σ lrpc = Ret (σ', lrpc') ∧
    (∀ g, g ∈ groups lrpc' → keyed σ' g) ∧
    Forall2 same_place (groups lrpc) (groups lrpc').
Proof.
  intros Hk Hok. destruct mu as [key host|key host|gi c]; simpl in *.
  - eexists _, _. split; [reflexivity|]. split; [done|].
    apply Forall2_same_place_refl.
  - eexists _, _. split; [reflexivity|]. split; [done|].
    apply Forall2_same_place_refl.
  - destruct Hok as [Hgi Hc].
    destruct (lookup_lt_is_Some_2 _ _ Hgi) as [group Hgroup]. rewrite Hgroup.
    assert (Hin : group ∈ groups lrpc) by (by eapply list_elem_of_lookup_2).
    destruct (exec_keyed c σ group (Hk group Hin) Hc)
      as (σ' & group' & e & Hexec & Hk' & Hsame).
    rewrite Hexec. simpl. eexists _, _. split; [reflexivity|]. simpl. split.
    + intros g Hg. apply list_elem_of_lookup in Hg as (j & Hj).
      apply list_lookup_insert_Some in Hj as [(-> & <- & _)|[_ Hj]]; [done|].
      eapply keyed_hosts_kept; [apply Hk; by eapply list_elem_of_lookup_2|].
      by eapply exec_hosts_kept.
    + rewrite <- (list_insert_id (groups lrpc) gi group Hgroup) at 1.
      apply Forall2_insert; [apply Forall2_same_place_refl|done].
Qed.

Lemma apply_mutations_ok (mus : list mutation) :
  ∀ (σ : store) (lrpc : localGroup),
    (∀ g, g ∈ groups lrpc → keyed σ g) →
    mutations_ok mus σ lrpc →
    ∃ σ' lrpc',
      apply_mutations mus σ lrpc = Ret (σ', lrpc') ∧
      (∀ g, g ∈ groups lrpc' → keyed σ' g) ∧
      Forall2 same_place (groups lrpc) (groups lrpc').
Proof.
  induction mus as [|mu mus IH]; intros σ lrpc Hk Hok; simpl in *.
  - eexists _, _. split; [reflexivity|]. split; [done|].
    apply Forall2_same_place_refl.
  - destruct Hok as [Hmu Hrest].
    destruct (apply_mutation_ok mu σ lrpc Hk Hmu) as (σ1 & lrpc1 & Hone & Hk1 & Hs1).
    rewrite Hone in Hrest |- *. simpl.
    destruct (IH σ1 lrpc1 Hk1 Hrest) as (σ' & lrpc' & Hall & Hk' & Hs').
    exists σ', lrpc'. split; [done|]. split; [done|].
    eapply Forall2_trans; [|exact Hs1|exact Hs'].
    intros x y z [H1 H2] [H3 H4]. split; congruence.
Qed.

(** (X11) Started on the groups that [genAffinityGroups] builds and with
    any store and directory, every sequence of directory updates and
    membership calls (each on a group of the list and, for [addNode],
    with a node pointer that leads to a record) runs without panic and
    ends in a state where every member is stored under the host name of
    its own record and the groups still carry their positions as [index]:
    the states in which [Nodes], [Snapshot] and [nextClosestGroup] do
    not panic. *)
Theorem reachable_states_keyed (N L i : Z)
    (tps : gmap (list byte) (list (list byte))) (σ : store)
    (gs : affinityGroups) (mus : list mutation) :
  1 ≤ N → 0 ≤ L → 8 * L < 2 ^ 63 →
  genAffinityGroups N L = Ret gs →
  mutations_ok mus σ {| idx := i; tuples := tps; groups := gs |} →
  ∃ σ' lrpc',
    apply_mutations mus σ {| idx := i; tuples := tps; groups := gs |} =
      Ret (σ', lrpc') ∧
    (∀ g, g ∈ groups lrpc' → keyed σ' g ∧ valid_ptrs σ' g) ∧
    well_indexed (groups lrpc') ∧
    Z.of_nat (length (groups lrpc')) = N.
Proof.
  intros HN HL HL8 Hgen Hok.
  destruct (apply_mutations_ok mus σ {| idx := i; tuples := tps; groups := gs |})
    as (σ' & lrpc' & Hall & Hk & Hs); [|done|].
  - simpl. intros g Hg h p Hm. apply list_elem_of_lookup in Hg as (j & Hj).
    rewrite genAffinityGroups_unfold in Hgen by done. injection Hgen as <-.
    destruct j as [|j]; simpl in Hj.
    + injection Hj as <-. simpl in Hm. by rewrite lookup_empty in Hm.
    + apply list_lookup_fmap_Some in Hj as (z & -> & _). simpl in Hm.
      by rewrite lookup_empty in Hm.
  - exists σ', lrpc'. split; [done|]. simpl in Hs. split; [|split].
    + intros g Hg. split; [by apply Hk|]. by apply keyed_valid, Hk.
    + intros j g' Hj.
      destruct (Forall2_lookup_r _ _ _ _ _ Hs Hj) as (g & Hg & _ & Hidx).
      rewrite <- Hidx. by eapply gen_index.
    + rewrite <- (Forall2_length _ _ _ Hs). by eapply gen_length.
Qed.

(** (X12) In a group where every member is stored under the host name of
    its own record, a membership call changes the record of no host but
    the one it names. *)
Theorem exec_other_hosts (c : call) (σ σ' : store)
    (group group' : affinityGroup) (e : option error) (h h' : string) :
  keyed σ group →
  exec c σ group = Ret (σ', group', e) →
  call_host c σ = Some h → h' ≠ h →
  record_of σ' group' h' = record_of σ group h'.
Proof.
  intros Hk Hexec Hhost Hne. unfold record_of.
  destruct c as [node force now|hn|hn coord rtt now]; simpl in *.
  - unfold addNode in Hexec. destruct (σ !! node) as [n|] eqn:Hn; [|done].
    simpl in Hhost. injection Hhost as <-.
    destruct (bool_decide _ && negb force); injection Hexec as <- <- <-; [done|].
    simpl. rewrite lookup_insert_ne by done.
    destruct (m group !! h') as [p|] eqn:Hp; [|done]. simpl.
    destruct (Hk h' p Hp) as (r & Hr & Hh).
    rewrite lookup_insert_ne; [done|]. intros <-. congruence.
  - injection Hhost as <-. unfold removeNode in Hexec.
    destruct (m group !! hn); injection Hexec as <- <- <-; [|done].
    simpl. by rewrite lookup_delete_ne.
  - injection Hhost as <-. unfold pingNode in Hexec.
    destruct (m group !! hn) as [q|] eqn:Hq.
    + destruct (Hk hn q Hq) as (nq & Hnq & Hhq). rewrite Hnq in Hexec.
      injection Hexec as <- <- <-. simpl. rewrite lookup_insert_ne by done.
      destruct (m group !! h') as [p|] eqn:Hp; [|done]. simpl.
      destruct (Hk h' p Hp) as (r & Hr & Hh).
      rewrite lookup_insert_ne; [done|]. intros <-. congruence.
    + by injection Hexec as <- <- <-.
Qed.

(** ** Routing does not depend on membership *)

Lemma get_loop_same_place (fuel : nat) :
  ∀ (l : nat) (arr arr' : affinityGroups) (v : list byte) (g : affinityGroup),
    Forall2 same_place arr arr' →
    get_loop fuel l arr v = Ret g →
    ∃ g', get_loop fuel l arr' v = Ret g' ∧ same_place g g'.
Proof.
  induction fuel as [|fuel IH]; intros l arr arr' v g Hf; [done|].
  rewrite !get_loop_S. cbv zeta. rewrite <- (Forall2_length _ _ _ Hf).
  destruct (arr !! (length arr / 2)%nat) as [gi|] eqn:Hgi; [|done].
  destruct (Forall2_lookup_l _ _ _ _ _ Hf Hgi) as (gi' & Hgi' & Hsame).
  rewrite Hgi'. destruct Hsame as [Hid Hidx]. rewrite <- Hid.
  destruct (negb _ && negb _).
  - destruct (Compare v (id gi) <? 0).
    + apply IH. by apply Forall2_take.
    + destruct (0 <? Compare v (id gi)).
      * apply IH. by apply Forall2_drop.
      * intros [= <-]. by exists gi'.
  - intros [= <-]. by exists gi'.
Qed.

(** (X13) Which group [get] answers for a hash depends on the boundaries
    only: after any sequence of directory updates and membership calls,
    [get] returns for every hash the group with the same boundary and the
    same position as before. *)
Theorem mutations_keep_routing (mus : list mutation) (σ : store)
    (lrpc : localGroup) (v : list byte) (g : affinityGroup) :
  (∀ g, g ∈ groups lrpc → keyed σ g) →
  mutations_ok mus σ lrpc →
  get (groups lrpc) v = Ret g →
  ∃ σ' lrpc' g',
    apply_mutations mus σ lrpc = Ret (σ', lrpc') ∧
    get (groups lrpc') v = Ret g' ∧ id g' = id g ∧ index g' = index g.
Proof.
  intros Hk Hok Hget.
  destruct (apply_mutations_ok mus σ lrpc Hk Hok) as (σ' & lrpc' & Hall & _ & Hs).
  unfold get in *.
  destruct (get_loop_same_place _ _ _ _ v g Hs Hget) as (g' & Hg' & Hid & Hidx).
  exists σ', lrpc', g'. split; [done|].
  rewrite <- (Forall2_length _ _ _ Hs). by split.
Qed.

(** ** [LookupGroupNodes] *)

Lemma range_fresh_alloc (n : list Node) :
  ∀ (σ : store) (acc : list ptr),
  ∃ σ' ps, range_fresh n σ acc = (σ', acc ++ ps) ∧ allocated σ σ' ps n.
Proof.
  induction n as [|nd n IH]; intros σ acc; simpl.
  - exists σ, []. rewrite app_nil_r. split; [done|]. apply allocated_nil.
  - set (p := fresh (dom σ)).
    assert (Hp : σ !! p = None) by (apply not_elem_of_dom, is_fresh).
    destruct (IH (<[p := nd]> σ) (acc ++ [p])) as (σ' & ps & Hr & Hal).
    rewrite Hr. exists σ', (p :: ps). split.
    + by rewrite <- app_assoc.
    + apply (allocated_app σ (<[p := nd]> σ) σ' [p] ps [nd] n); [|done].
      split; [|split].
      * constructor; [by rewrite lookup_insert_eq|constructor].
      * intros q Hq. apply list_elem_of_singleton in Hq. by subst q.
      * intros q nq Hq. rewrite lookup_insert_ne; [done|]. intros <-. congruence.
Qed.

Lemma last_cons_is_Some {A} (x : A) (l : list A) : is_Some (last (x :: l)).
Proof.
  revert x. induction l as [|y l IH]; intros x; [by eexists|].
  rewrite last_cons_cons. apply IH.
Qed.

Lemma range_shared_overwrites (p : ptr) (n : list Node) :
  ∀ (σ : store) (acc : list ptr),
  ∃ σ', range_shared p n σ acc = (σ', acc ++ replicate (length n) p) ∧
        σ' !! p = from_option Some (σ !! p) (last n) ∧
        ∀ q, q ≠ p → σ' !! q = σ !! q.
Proof.
  induction n as [|nd n IH]; intros σ acc; simpl.
  - exists σ. by rewrite app_nil_r.
  - destruct (IH (<[p := nd]> σ) (acc ++ [p])) as (σ' & Hr & Hp & Hq).
    rewrite Hr. exists σ'. split; [by rewrite <- app_assoc|]. split.
    + rewrite Hp, lookup_insert_eq. destruct n as [|x n]; [done|].
      rewrite last_cons_cons. by destruct (last_cons_is_Some x n) as [y ->].
    + intros q Hne. rewrite Hq by done. by rewrite lookup_insert_ne.
Qed.

(** (X14) On a non-empty group list whose member pointers lead to
    records, [LookupGroupNodes] never fails: it returns one pointer for
    each member of the group that [get] finds for the digest of the key,
    all of them new addresses, and leaves the live records as they were.
    When the loop variable is instantiated per iteration, the pointers
    lead to copies of the group's nodes, in the order of [Nodes]; when it
    is instantiated once, all returned pointers are one and the same
    address, which holds the copy of the last node. *)
Theorem LookupGroupNodes_spec (lrpc : localGroup) (key : list byte) (σ : store) :
  groups lrpc ≠ [] →
  (∀ g, g ∈ groups lrpc → valid_ptrs σ g) →
  ∃ group n σ' nodes,
    get (groups lrpc) (hashFunc key) = Ret group ∧
    Nodes σ group = Ret n ∧
    LookupGroupNodes lrpc key σ = Ret (σ', nodes, None) ∧
    Z.of_nat (length nodes) = count group ∧
    (∀ q r, σ !! q = Some r → σ' !! q = Some r) ∧
    (∀ p, p ∈ nodes → σ !! p = None) ∧
    (loopvar_per_iteration = true → deref_all σ' nodes = Ret n) ∧
    (loopvar_per_iteration = false →
       ∀ p, p ∈ nodes → p = fresh (dom σ) ∧ σ' !! p = last n).
Proof.
  intros Hne Hvalid.
  destruct (get_total (groups lrpc) (hashFunc key) Hne) as (group & Hget & Hin).
  destruct (Nodes_valid σ group (Hvalid group Hin)) as (n & Hn & Hlen).
  exists group, n. unfold LookupGroupNodes. rewrite Hget, run_bind_Ret, Hn, run_bind_Ret.
  assert (Hfresh : σ !! fresh (dom σ) = None) by (apply not_elem_of_dom, is_fresh).
  destruct loopvar_per_iteration.
  - destruct (range_fresh_alloc n σ []) as (σ' & ps & Hr & Hf & Hnew & Hext).
    rewrite Hr. simpl app. exists σ', ps. split; [done|]. split; [done|].
    split; [reflexivity|]. split.
    { unfold count. rewrite (Forall2_length _ _ _ Hf). lia. }
    split; [exact Hext|]. split; [exact Hnew|]. split; [|done].
    intros _. by apply deref_all_Ret.
  - destruct (range_shared_overwrites (fresh (dom σ)) n σ []) as (σ' & Hr & Hp & Hq).
    rewrite Hr. simpl app. eexists σ', _. split; [done|]. split; [done|].
    split; [reflexivity|]. split.
    { unfold count. rewrite length_replicate. lia. }
    split.
    { intros q r Hqr. rewrite Hq; [done|]. intros ->. congruence. }
    split.
    { intros p Hpin. apply elem_of_replicate in Hpin as [-> _]. done. }
    split; [done|]. intros _ p Hpin.
    apply elem_of_replicate in Hpin as [-> Hlen0]. split; [done|].
    rewrite Hp. destruct n as [|x n]; [simpl in Hlen0; lia|].
    by destruct (last_cons_is_Some x n) as [y ->].
Qed.

(** ** Boundaries as numbers *)

Lemma gen_boundary_value (N L : Z) (gs : affinityGroups) (i : nat)
    (g : affinityGroup) :
  1 ≤ N → 0 ≤ L → 8 * L < 2 ^ 63 →
  genAffinityGroups N L = Ret gs →
  gs !! i = Some g →
  boundary g = Z.of_nat i * (2 ^ (8 * L) / N).
Proof.
  intros HN HL HL8 Hgen Hi.
  assert (Hlen := gen_length N L gs HN HL HL8 Hgen).
  apply lookup_lt_Some in Hi as Hlt. destruct i as [|i].
  - rewrite (gen_lookup_0 N L gs) in Hi by done. injection Hi as <-.
    unfold boundary. simpl. unfold make_bytes.
    rewrite be_value_replicate_zero. lia.
  - rewrite (gen_lookup_S N L gs i) in Hi by (done || lia). injection Hi as <-.
    unfold boundary. simpl id. apply Bytes_value.
    assert (0 ≤ 2 ^ (8 * L) / N); [|lia].
    apply Z.div_pos; [|lia]. apply Z.pow_nonneg. lia.
Qed.

(** (C2, as amended) For every group count [N >= 1] that does not exceed
    the size [256^L] of the keyspace, [genAffinityGroups] returns exactly
    [N] groups; group [i]'s lower boundary is, as a hash value (a
    big-endian number), strictly less than group [i+1]'s for every [i];
    and group 0's boundary is the all-zero value of [L] bytes. *)
Theorem boundaries_increase (N L : Z) :
  0 ≤ L → 8 * L < 2 ^ 63 → 1 ≤ N ≤ 256 ^ L →
  ∃ gs, genAffinityGroups N L = Ret gs ∧
    Z.of_nat (length gs) = N ∧
    (∀ i gi gj, gs !! i = Some gi → gs !! S i = Some gj →
       boundary gi < boundary gj) ∧
    (∃ g0, gs !! 0%nat = Some g0 ∧
           id g0 = replicate (Z.to_nat L) "000"%byte).
Proof.
  intros HL HL8 [HN HNL].
  assert (Hgen := genAffinityGroups_unfold N L HN HL HL8).
  match type of Hgen with _ = Ret ?l => set (gs := l) in * end.
  exists gs. split; [exact Hgen|].
  split; [by eapply gen_length|]. split.
  - intros i gi gj Hi Hj.
    rewrite (gen_boundary_value N L gs i gi HN HL HL8 Hgen Hi).
    rewrite (gen_boundary_value N L gs (S i) gj HN HL HL8 Hgen Hj).
    assert (Hspan : 1 ≤ 2 ^ (8 * L) / N).
    { apply Z.div_le_lower_bound; [lia|]. rewrite pow256 by done. lia. }
    nia.
  - eexists. split; [reflexivity|]. reflexivity.
Qed.

End Kelips.

(** (C2) A counterexample to boundary ordering for every [N] and [L]: with
    257 groups over a one-byte keyspace the span is 0, groups 1 and 2 get
    the same (empty) boundary, so group 1's boundary is not below
    group 2's. *)
Lemma boundary_ordering_fails_257_1 : ¬ boundary_ordering 257 1.
Proof.
  intros (gs & Hgen & _ & Hord & _).
  vm_compute in Hgen. injection Hgen as <-.
  specialize (Hord 1%nat _ _ eq_refl eq_refl).
  vm_compute in Hord. discriminate Hord.
Qed.

Lemma boundary_ordering_small_witness : boundary_ordering 3 1.
Proof.
  apply (boundary_ordering_small 3 1); [lia | reflexivity | right; lia].
Defined.

(** (C1) On the list built for 655 groups and two-byte hashes, [get]
    answers group 0 for the hash [0x0150], although group 3 starts at
    [0x012c]: group 3's boundary is above group 0's and not above the
    hash, both as numbers and by [bytes.Compare].  Groups 1 and 2 carry
    the one-byte boundaries [0x64] and [0xc8], which [bytes.Compare] puts
    above the hash. *)
Theorem get_misses_group_655 :
  ∃ gs g g3,
    genAffinityGroups 655 2 = Ret gs ∧
    get gs [Byte.x01; Byte.x50] = Ret g ∧ index g = 0 ∧
    gs !! 3%nat = Some g3 ∧ id g3 = [Byte.x01; Byte.x2c] ∧
    boundary g < boundary g3 ≤ be_value [Byte.x01; Byte.x50] ∧
    Compare (id g) (id g3) < 0 ∧ Compare (id g3) [Byte.x01; Byte.x50] < 0 ∧
    ¬ locates gs [Byte.x01; Byte.x50] g.
Proof.
  destruct (genAffinityGroups 655 2) as [gs| |] eqn:E;
    vm_compute in E; try discriminate E.
  injection E as <-. eexists _, _, _.
  split; [reflexivity|]. split; [vm_compute; reflexivity|].
  split; [reflexivity|]. split; [reflexivity|]. split; [reflexivity|].
  split; [vm_compute; split; [reflexivity|discriminate]|].
  split; [reflexivity|]. split; [reflexivity|].
  intros (_ & _ & Hmax).
  specialize (Hmax {| id := [Byte.x01; Byte.x2c]; index := 3; m := ∅ |}).
  vm_compute in Hmax.
  apply Hmax; [|discriminate|reflexivity].
  apply list_elem_of_lookup. exists 3%nat. reflexivity.
Qed.

(** The same with 32-byte hashes, the length of the default SHA-256:
    for 655 groups the boundaries of groups 1 and 2 are 31 bytes long,
    and the hash [0x0150 00..00], which lies in group 3's range, is
    answered with group 0. *)
Example get_misses_group_655_sha256 :
  ∃ gs g g1 g3,
    genAffinityGroups 655 32 = Ret gs ∧
    get gs (Byte.x01 :: Byte.x50 :: replicate 30 Byte.x00) = Ret g ∧
    index g = 0 ∧
    gs !! 1%nat = Some g1 ∧ length (id g1) = 31%nat ∧
    gs !! 3%nat = Some g3 ∧ length (id g3) = 32%nat ∧
    boundary g < boundary g3 ≤
      be_value (Byte.x01 :: Byte.x50 :: replicate 30 Byte.x00) ∧
    Compare (id g) (id g3) < 0 ∧
    Compare (id g3) (Byte.x01 :: Byte.x50 :: replicate 30 Byte.x00) < 0.
Proof.
  let r := eval vm_compute in (genAffinityGroups 655 32) in
  match r with Ret ?l => exists l end.
  eexists _, _, _.
  split; [vm_compute; reflexivity|]. split; [vm_compute; reflexivity|].
  split; [reflexivity|]. split; [reflexivity|]. split; [reflexivity|].
  split; [reflexivity|]. split; [reflexivity|].
  split; [vm_compute; split; [reflexivity|discriminate]|].
  split; vm_compute; reflexivity.
Qed.

(** * The statements on concrete inputs *)

(** Evaluate the call at the head of a run on a concrete state. *)
Ltac run_exec :=
  match goal with
  | |- context [exec ?C ?cl ?M ?c ?σ ?g] =>
      let r := eval vm_compute in (exec C cl M c σ g) in
      change (exec C cl M c σ g) with r; cbv beta iota
  end.

Lemma addNode_spec_witness :
  ex_store Z 0 !! 2%positive = Some (ex_node Z "A" 0 0) ∧
  addNode Z 2%positive false 30 (ex_store Z 0) ex_group =
    Ret (ex_store Z 0, ex_group, Some errNodeExists).
Proof.
  split; [reflexivity|].
  apply (addNode_spec Z (ex_store Z 0) ex_group 2%positive (ex_node Z "A" 0 0) 30);
    [reflexivity|].
  exists 1%positive. reflexivity.
Defined.

Lemma pingNode_wrapping_spec_witness :
  ∃ σ' group',
    pingNode Z (λ c, c) (2 ^ 32) "A" 5 9 20 (ex_store Z 0) ex_group =
      Ret (σ', group', None) ∧
    record_of Z σ' group' "A" =
      Some {| Host := "A"; Heartbeats := 1; LastSeen := 20; Coordinates := 5 |}.
Proof.
  destruct (pingNode_wrapping_spec Z (λ c, c) (2 ^ 32) (ex_store Z 0) ex_group
              "A" 5 9 20) as [_ Hmember].
  destruct (Hmember 1%positive (ex_node Z "A" 0 0))
    as (σ' & group' & Hret & _ & Hrec & _); [reflexivity | reflexivity |].
  exists σ', group'. split; [exact Hret|exact Hrec].
Defined.

Lemma error_leaves_state_witness :
  exec Z (λ c, c) (2 ^ 32) (RemoveNode Z "C") (ex_store Z 0) ex_group =
    Ret (ex_store Z 0, ex_group, Some (errNodeNotFound "C")) ∧
  m ex_group !! "C"%string = None.
Proof.
  split; [reflexivity|].
  destruct (error_leaves_state Z (λ c, c) (2 ^ 32) (RemoveNode Z "C")
              (ex_store Z 0) (ex_store Z 0) ex_group ex_group
              (errNodeNotFound "C") eq_refl) as (_ & _ & _ & Hnone).
  exact Hnone.
Defined.

(** (C7) A counterexample to heartbeat monotonicity over all sequences:
    host [A] joins with the record at address 1, is pinged once (counter
    1), and is then added again with [force] through the record at
    address 2, whose counter is 0: the counter of member [A] drops from 1
    to 0. *)
Lemma heartbeats_decrease_after_forced_add :
  ¬ heartbeats_never_decrease Z (λ c, c) (2 ^ 32).
Proof.
  intros Hmono.
  assert (Hle : 1 ≤ 0); [|lia].
  apply (Hmono (ex_calls Z 0) (ex_store Z 0) ex_empty_group "A"%string 2%nat
           (<[1%positive := {| Host := "A"; Heartbeats := 1; LastSeen := 20;
                               Coordinates := 0 |}]> (ex_store Z 0),
            {| id := []; index := 0; m := {[ "A"%string := 1%positive ]} |})
           (<[2%positive := {| Host := "A"; Heartbeats := 0; LastSeen := 30;
                               Coordinates := 0 |}]>
              (<[1%positive := {| Host := "A"; Heartbeats := 1; LastSeen := 20;
                                  Coordinates := 0 |}]> (ex_store Z 0)),
            {| id := []; index := 0; m := {[ "A"%string := 2%positive ]} |}));
    vm_compute; reflexivity.
Qed.

Lemma heartbeat_monotone_unforced_witness :
  heartbeat_monotone Z "A"
    (trace Z (λ c, c) (2 ^ 32) (ex_quiet_calls Z 0) (ex_store Z 0) ex_empty_group).
Proof.
  apply (heartbeat_monotone_unforced Z (λ c, c) (2 ^ 32) (ex_quiet_calls Z 0)
           (ex_store Z 0) ex_empty_group "A").
  unfold ex_quiet_calls.
  split; [intros Hf; discriminate Hf|]. run_exec.
  split; [intros p n Hp Hn; vm_compute in Hp; injection Hp as <-;
          vm_compute in Hn; injection Hn as <-; simpl; lia|]. run_exec.
  split; [intros p n Hp Hn; vm_compute in Hp; injection Hp as <-;
          vm_compute in Hn; injection Hn as <-; simpl; lia|]. run_exec.
  split; [intros Hf; discriminate Hf|]. run_exec.
  split; [exact I|]. run_exec.
  exact I.
Defined.

Lemma ex_lrpc_valid (g : affinityGroup) :
  g ∈ groups ex_lrpc → valid_ptrs Z (ex_store Z 0) g.
Proof.
  intros Hg h p Hm. simpl in Hg.
  repeat (apply elem_of_cons in Hg as [->|Hg]); [| | |by apply elem_of_nil in Hg].
  - simpl in Hm. apply lookup_singleton_Some in Hm as [_ <-]. by eexists.
  - simpl in Hm. by rewrite lookup_empty in Hm.
  - simpl in Hm. by rewrite lookup_empty in Hm.
Defined.

Lemma Snapshot_spec_witness :
  ∃ σ' s,
    take_Snapshot Z ex_lrpc (ex_store Z 0) = Ret (σ', s) ∧
    ({| Key := [Byte.x6b]; Hosts := [[Byte.x41]] |} ∈ Tuples s) ∧
    (∀ q n, ex_store Z 0 !! q = Some n → σ' !! q = Some n).
Proof.
  destruct (Snapshot_spec Z (λ c, c) (2 ^ 32) ex_lrpc (ex_store Z 0) ex_lrpc_valid)
    as (σ' & s & nss & Hret & Htuples & _ & _ & _ & _ & Hkeep & _).
  exists σ', s. split; [exact Hret|]. split; [|exact Hkeep].
  apply Htuples. reflexivity.
Defined.

Lemma nextClosestGroup_spec_witness :
  nextClosestGroup Z (ex_store Z 0) (groups ex_lrpc)
    (newAffinityGroup [Byte.x55] 1) = Ret (Some ex_group).
Proof.
  destruct (nextClosestGroup_spec Z (ex_store Z 0) (groups ex_lrpc)
              (newAffinityGroup [Byte.x55] 1) 1) as [Hret _].
  - intros [|[|[|i]]] g Hi; simpl in Hi; try discriminate Hi;
      injection Hi as <-; reflexivity.
  - reflexivity.
  - simpl. lia.
  - intros h p Hm. simpl in Hm. by rewrite lookup_empty in Hm.
  - exact ex_lrpc_valid.
  - rewrite Hret. reflexivity.
Defined.

Lemma Lookup_spec_witness :
  ∃ nodes,
    Lookup (λ h, h) (λ _, "A"%string) ex_lrpc [Byte.x6b] = Ret (nodes, None) ∧
    (1%positive ∈ nodes) ∧ (length nodes ≤ 1)%nat.
Proof.
  destruct (Lookup_spec (λ h, h) (λ _, "A"%string) ex_lrpc [Byte.x6b] [[Byte.x41]])
    as (nodes & Hret & Hin & Hlen).
  - discriminate.
  - reflexivity.
  - exists nodes. split; [exact Hret|]. split; [|exact Hlen].
    apply Hin. exists [Byte.x41], ex_group. split; [by left|].
    split; reflexivity.
Defined.

Lemma tuple_set_semantics_witness :
  tuples_Delete [Byte.x6b] [Byte.x42] (tuples ex_lrpc) = (tuples ex_lrpc, None).
Proof.
  apply (tuple_set_semantics (tuples ex_lrpc) [Byte.x6b] [Byte.x42]).
  intros Hin. apply list_elem_of_singleton in Hin. discriminate Hin.
Defined.

(** The directory modelled from the specification passes the package's
    own test. *)
Example Test_InmemTuples_passes : Test_InmemTuples = true.
Proof. vm_compute. reflexivity. Qed.

(** The example of the specification: after the inserts of (k1, A),
    (k2, A) and (k2, B), [expireHost A] leaves no host under k1 and only B
    under k2, and answers [true]. *)
Example expireHost_example :
  let k1 := [Byte.x6b; Byte.x31] in
  let k2 := [Byte.x6b; Byte.x32] in
  let A := [Byte.x41] in
  let B := [Byte.x42] in
  let d := (tuples_Insert k2 B (tuples_Insert k2 A (tuples_Insert k1 A ∅).1).1).1 in
  hosts_of (tuples_ExpireHost A d).1 k1 = [] ∧
  hosts_of (tuples_ExpireHost A d).1 k2 = [B] ∧
  (tuples_ExpireHost A d).2 = true ∧
  (tuples_ExpireHost B (tuples_ExpireHost B d).1).2 = false.
Proof. vm_compute. repeat split. Qed.

(** ** Further statements on concrete inputs *)

(** Evaluate the mutation at the head of a run on a concrete state. *)
Ltac run_mutation :=
  match goal with
  | |- context [apply_mutation ?C ?cl ?M ?mu ?σ ?l] =>
      let r := eval vm_compute in (apply_mutation C cl M mu σ l) in
      change (apply_mutation C cl M mu σ l) with r; cbv beta iota
  end.

Lemma ex_group_keyed : keyed Z (ex_store Z 0) ex_group.
Proof.
  intros h p Hm. simpl in Hm. apply lookup_singleton_Some in Hm as [<- <-].
  by eexists.
Defined.

Lemma ex_lrpc_well_indexed : well_indexed (groups ex_lrpc).
Proof.
  intros [|[|[|i]]] g Hi; simpl in Hi; try discriminate Hi;
    injection Hi as <-; reflexivity.
Defined.

Lemma get_returns_member_witness :
  ∃ g, get (groups ex_lrpc) [Byte.x41] = Ret g ∧ g ∈ groups ex_lrpc.
Proof.
  apply (get_returns_member (groups ex_lrpc) [Byte.x41]). discriminate.
Defined.

Lemma get_finds_greatest_witness :
  ∃ g, get ex_ring [Byte.x60] = Ret g ∧ locates ex_ring [Byte.x60] g.
Proof.
  destruct (get_finds_greatest ex_ring [Byte.x60]) as (g & Hget & Hloc & _).
  - intros g Hg. unfold ex_ring in Hg.
    repeat (apply elem_of_cons in Hg as [->|Hg]); try reflexivity.
    by apply elem_of_nil in Hg.
  - intros [|[|[|j]]] [|[|[|k]]] gj gk Hj Hk Hlt; simpl in Hj, Hk;
      try discriminate Hj; try discriminate Hk; try lia;
      injection Hj as <-; injection Hk as <-; vm_compute; reflexivity.
  - eexists. split; [reflexivity|]. vm_compute. discriminate.
  - exists g. split; [exact Hget|exact Hloc].
Defined.

Lemma gen_shape_witness :
  ∃ gs, genAffinityGroups 3 1 = Ret gs ∧ well_indexed gs.
Proof.
  destruct (gen_shape 3 1) as (gs & Hgen & _ & Hidx & _);
    [lia | lia | reflexivity |].
  exists gs. split; [exact Hgen|exact Hidx].
Defined.

Lemma get_gen_index_witness :
  ∃ gs g, genAffinityGroups 3 1 = Ret gs ∧ get gs [Byte.x60] = Ret g ∧
          index g = 1.
Proof.
  destruct (get_gen_index 3 1 [Byte.x60]) as (gs & g & Hgen & Hget & Hidx);
    [lia | reflexivity | lia | reflexivity |].
  exists gs, g. split; [exact Hgen|]. split; [exact Hget|]. exact Hidx.
Defined.

Lemma Nodes_members_witness :
  ∃ ns, Nodes Z (ex_store Z 0) ex_group = Ret ns ∧
        Z.of_nat (length ns) = count ex_group.
Proof.
  destruct (Nodes_members Z (ex_store Z 0) ex_group) as (ns & Hns & Hlen & _).
  - apply (ex_lrpc_valid ex_group). by left.
  - exists ns. split; [exact Hns|exact Hlen].
Defined.

Lemma Snapshot_node_count_witness :
  ∃ σ' s, take_Snapshot Z ex_lrpc (ex_store Z 0) = Ret (σ', s) ∧
          Z.of_nat (length (SnapNodes s)) = 1.
Proof.
  destruct (Snapshot_node_count Z ex_lrpc (ex_store Z 0) ex_lrpc_valid)
    as (σ' & s & Hret & Hlen).
  exists σ', s. split; [exact Hret|]. rewrite Hlen. reflexivity.
Defined.

Lemma iterNodes_stops_witness :
  ∃ nss,
    Forall2 (λ g ns, Nodes Z (ex_store Z 0) g = Ret ns) (groups ex_lrpc) nss ∧
    iterNodes Z (collect_while Z (λ _, false)) (groups ex_lrpc) (ex_store Z 0) [] =
      Ret (ex_store Z 0, through_first_stop Z (λ _, false) (concat nss)).
Proof.
  apply (iterNodes_stops Z (λ _, false) (ex_store Z 0) (groups ex_lrpc)
           ex_lrpc_valid).
Defined.

Lemma nextClosestGroup_none_iff_witness :
  nextClosestGroup Z (ex_store Z 0) ex_ring (newAffinityGroup [Byte.x55] 1) =
    Ret None.
Proof.
  destruct (nextClosestGroup_none_iff Z (ex_store Z 0) ex_ring
              (newAffinityGroup [Byte.x55] 1) 1) as [[_ Hnone] _].
  - intros [|[|[|i]]] g Hi; simpl in Hi; try discriminate Hi;
      injection Hi as <-; reflexivity.
  - reflexivity.
  - simpl. lia.
  - intros h p Hm. simpl in Hm. by rewrite lookup_empty in Hm.
  - intros g Hg h p Hm. unfold ex_ring in Hg.
    repeat (apply elem_of_cons in Hg as [->|Hg]);
      try (simpl in Hm; by rewrite lookup_empty in Hm).
    by apply elem_of_nil in Hg.
  - apply Hnone. split; [reflexivity|].
    intros [|[|[|i]]] g Hi Hne; simpl in Hi; try discriminate Hi;
      injection Hi as <-; reflexivity.
Defined.

Lemma removeNode_spec_witness :
  ∃ group',
    removeNode Z "A" (ex_store Z 0) ex_group = Ret (ex_store Z 0, group', None) ∧
    count group' = 0.
Proof.
  destruct (removeNode_spec Z (ex_store Z 0) ex_group "A" 1%positive)
    as (group' & Hret & _ & _ & Hcount & _); [reflexivity|].
  exists group'. split; [exact Hret|]. rewrite Hcount. reflexivity.
Defined.

Lemma addNode_then_removeNode_witness :
  ∃ σ' group',
    addNode Z 3%positive false 40 (ex_store Z 0) ex_group = Ret (σ', group', None) ∧
    count group' = 2 ∧
    removeNode Z "B" σ' group' = Ret (σ', ex_group, None).
Proof.
  destruct (addNode_then_removeNode Z (ex_store Z 0) ex_group 3%positive
              (ex_node Z "B" 7 0) false 40) as (σ' & group' & Hnew & _);
    [reflexivity|].
  destruct Hnew as (Hadd & Hcount & Hrem); [reflexivity|].
  exists σ', group'. split; [exact Hadd|]. split; [|exact Hrem].
  rewrite Hcount. reflexivity.
Defined.

Lemma ex_mutations_ok :
  mutations_ok Z (λ c, c) (2 ^ 32) (ex_mutations Z 0) (ex_store Z 0)
    {| idx := 0; tuples := ∅; groups := ex_ring |}.
Proof.
  unfold ex_mutations.
  split; [split; [simpl; lia|by eexists]|]. run_mutation.
  split; [split; [simpl; lia|exact I]|]. run_mutation.
  split; [exact I|]. run_mutation.
  split; [split; [simpl; lia|by eexists]|]. run_mutation.
  split; [split; [simpl; lia|exact I]|]. run_mutation.
  exact I.
Defined.

Lemma reachable_states_keyed_witness :
  ∃ σ' lrpc',
    apply_mutations Z (λ c, c) (2 ^ 32) (ex_mutations Z 0) (ex_store Z 0)
      {| idx := 0; tuples := ∅; groups := ex_ring |} = Ret (σ', lrpc') ∧
    well_indexed (groups lrpc').
Proof.
  destruct (reachable_states_keyed Z (λ c, c) (2 ^ 32) 3 1 0 ∅ (ex_store Z 0)
              ex_ring (ex_mutations Z 0))
    as (σ' & lrpc' & Hret & _ & Hidx & _);
    [lia | lia | reflexivity | reflexivity | exact ex_mutations_ok |].
  exists σ', lrpc'. split; [exact Hret|exact Hidx].
Defined.

Lemma exec_other_hosts_witness :
  record_of Z (<[3%positive := {| Host := "B"; Heartbeats := 7; LastSeen := 40;
                                  Coordinates := 0 |}]> (ex_store Z 0))
    {| id := []; index := 0;
       m := <["B"%string := 3%positive]> {[ "A"%string := 1%positive ]} |} "A" =
  record_of Z (ex_store Z 0) ex_group "A".
Proof.
  apply (exec_other_hosts Z (λ c, c) (2 ^ 32) (AddNode Z 3%positive false 40)
           (ex_store Z 0) _ ex_group _ None "B" "A" ex_group_keyed).
  - reflexivity.
  - reflexivity.
  - discriminate.
Defined.

Lemma mutations_keep_routing_witness :
  ∃ σ' lrpc' g',
    apply_mutations Z (λ c, c) (2 ^ 32) (ex_mutations Z 0) (ex_store Z 0)
      {| idx := 0; tuples := ∅; groups := ex_ring |} = Ret (σ', lrpc') ∧
    get (groups lrpc') [Byte.x60] = Ret g' ∧ index g' = 1.
Proof.
  destruct (mutations_keep_routing Z (λ c, c) (2 ^ 32) (ex_mutations Z 0)
              (ex_store Z 0) {| idx := 0; tuples := ∅; groups := ex_ring |}
              [Byte.x60] (newAffinityGroup [Byte.x55] 1))
    as (σ' & lrpc' & g' & Hret & Hget & _ & Hidx).
  - intros g Hg h p Hm. simpl in Hg. unfold ex_ring in Hg.
    repeat (apply elem_of_cons in Hg as [->|Hg]);
      try (simpl in Hm; by rewrite lookup_empty in Hm).
    by apply elem_of_nil in Hg.
  - exact ex_mutations_ok.
  - reflexivity.
  - exists σ', lrpc', g'. split; [exact Hret|]. split; [exact Hget|exact Hidx].
Defined.

Lemma LookupGroupNodes_spec_witness :
  ∃ σ' nodes,
    LookupGroupNodes Z (λ key, key) false ex_lrpc [Byte.x41] (ex_store Z 0) =
      Ret (σ', nodes, None) ∧
    (∀ q r, ex_store Z 0 !! q = Some r → σ' !! q = Some r).
Proof.
  destruct (LookupGroupNodes_spec Z (λ key, key) false ex_lrpc [Byte.x41]
              (ex_store Z 0))
    as (group & n & σ' & nodes & _ & _ & Hret & _ & Hkeep & _).
  - discriminate.
  - exact ex_lrpc_valid.
  - exists σ', nodes. split; [exact Hret|exact Hkeep].
Defined.

(** ** Amended statements on concrete inputs *)

Lemma boundaries_increase_witness :
  ∃ gs, genAffinityGroups 257 2 = Ret gs ∧ Z.of_nat (length gs) = 257.
Proof.
  destruct (boundaries_increase 257 2) as (gs & Hgen & Hlen & _);
    [lia | reflexivity | split; [lia | vm_compute; discriminate] |].
  exists gs. split; [exact Hgen|exact Hlen].
Defined.

(** (C6) A counterexample to the counter going up by one on every ping:
    with a 32-bit counter, the ping of a member whose counter is
    [2^32 - 1] stores the counter 0. *)
Lemma pingNode_wraps_at_top : ¬ pingNode_increments Z (λ c, c) (2 ^ 32).
Proof.
  intros Hinc.
  destruct (Hinc (ex_top_store Z 0) ex_group "A"%string 1%positive
              (ex_node Z "A" (2 ^ 32 - 1) 0) 5 9 20 eq_refl eq_refl)
    as (σ' & group' & r & Hret & Hrec & Hhb).
  vm_compute in Hret. injection Hret as <- <-.
  vm_compute in Hrec. injection Hrec as <-.
  vm_compute in Hhb. discriminate Hhb.
Qed.

(** (C8) A counterexample to snapshot immutability under every later
    mutation: [addNode], handed with [force] the snapshot's own record of
    host [A], writes the time of the call into that record, so the
    snapshot shows last-seen 99 where it showed 0. *)
Lemma snapshot_altered_by_own_record : ¬ snapshot_immutable Z (λ c, c) (2 ^ 32).
Proof.
  intros Himm.
  let r := eval vm_compute in (take_Snapshot Z ex_lrpc (ex_store Z 0)) in
  match r with
  | Ret (?σ1, {| Tuples := ?t; SnapNodes := [?p] |}) =>
      let r2 := eval vm_compute in
        (apply_mutations Z (λ c, c) (2 ^ 32) [MGroup Z 0 (AddNode Z p true 99)]
           σ1 ex_lrpc) in
      match r2 with
      | Ret (?σ2, ?l2) =>
          pose proof (Himm ex_lrpc (ex_store Z 0) σ1
                        {| Tuples := t; SnapNodes := [p] |}
                        [MGroup Z 0 (AddNode Z p true 99)] σ2 l2
                        ex_lrpc_valid) as Hview
      end
  end.
  assert (Hsnap : ∀ A B : Prop, A → B → (A → B → False) → False) by tauto.
  eapply Hsnap; [| |intros H1 H2; specialize (Hview H1 H2);
                    vm_compute in Hview; discriminate Hview];
    vm_compute; reflexivity.
Qed.
